(** * Pairwise Euclidean distance matrices: the notebook's builders

    A shallow embedding of the code cells of
    [2dv516-python-2-part-2-threads.ipynb]: the distance function
    [eucl_dist], the sequential builder [eucl_dist_matrix], its randomly
    ordered variant [eucl_dist_matrix_shuffled], the threaded builders
    [eucl_dist_matrix_thr], [eucl_dist_matrix_thr_2], [eucl_dist_matrix_thr_3]
    and [eucl_dist_matrix_thr_4], the builder with processes
    [eucl_dist_matrix_p], and the chunked builders [eucl_dist_matrix_4] and
    [eucl_dist_matrix_jl].

    The entries of a vector are Python floats, that is IEEE 754 binary64
    numbers with their rounding, infinities and nan: [float] below.  An
    integer such as the 3 of the examples, or the 0 that
    [empty_square_matrix] fills in, stands for the float of the same value.
    Datasets of Python integers in general (whose arithmetic is exact, and
    which [sqrt] converts to a float, raising [OverflowError] when the
    integer is too large) and numpy scalars (whose [**] answers an overflow
    with inf and a warning) are outside this model.  Python lists are lists,
    indexed by position; an exception is a [Raise] in the error monad
    [result]. *)

From Stdlib Require Import ZArith Lia Floats.
From stdpp Require Import base list.

(** ** Exceptions *)

Inductive pyerr : Type :=
  | ValueError
  | ZeroDivisionError
  | IndexError
  | OverflowError.

Inductive result (A : Type) : Type :=
  | Ok (a : A)
  | Raise (e : pyerr).
Arguments Ok {A} a.
Arguments Raise {A} e.

#[global] Instance result_bind : MBind result :=
  fun A B (k : A -> result B) (m : result A) =>
    match m with
    | Ok a => k a
    | Raise e => Raise e
    end.

(** [for i in it: body], the loop state threaded through the iterations;
    an exception in the body leaves the loop. *)
Fixpoint for_ {I S} (it : list I) (body : I -> S -> result S) (s : S)
  : result S :=
  match it with
  | [] => Ok s
  | i :: it' => s' ← body i s; for_ it' body s'
  end.

(** [[f(a) for a in l]]: the elements in order; the first exception ends the
    comprehension. *)
Fixpoint comprehension {A B} (f : A -> result B) (l : list A)
  : result (list B) :=
  match l with
  | [] => Ok []
  | a :: l' => b ← f a; bs ← comprehension f l'; Ok (b :: bs)
  end.

(** ** What lies outside Python's own arithmetic *)

(** The float of a small natural number. *)
Fixpoint float_of_nat (k : nat) : float :=
  match k with
  | 0 => 0%float
  | S k' => (float_of_nat k' + 1)%float
  end.

(** Three functions are computed by libraries whose results are not fixed
    by IEEE 754 to the last bit: the C library's [pow(a, 2.0)], on which
    Python's [a ** 2] rests and which need not be correctly rounded;
    numpy's [np.sum] of one row, which adds in an order of its own; and the
    entry scipy's [cdist] computes for two rows.  They are parameters.  Of
    [pow] two facts are used: the square of a positive number is a number
    (no nan) that is not negative, and the squares of the integers below 256
    are exact. *)
Record platform : Type := Platform {
  c_pow2 : float -> float;
  c_pow2_non_negative : forall a,
    (0 <? a)%float = true -> (0 <=? c_pow2 a)%float = true;
  c_pow2_small : forall k, k < 256 ->
    c_pow2 (float_of_nat k) = float_of_nat (k * k);
  np_sum : list float -> float;
  sp_euclidean : list float -> list float -> float
}.

(** ** Python built-ins used by the notebook *)

(** [l[i]] for an index [0 <= i]. *)
Definition getitem {A} (l : list A) (i : nat) : result A :=
  match l !! i with
  | Some a => Ok a
  | None => Raise IndexError
  end.

(** [l[i] = v] for an index [0 <= i]. *)
Definition setitem {A} (l : list A) (i : nat) (v : A) : result (list A) :=
  if decide (i < length l) then Ok (<[i := v]> l) else Raise IndexError.

(** [v ** 2] on a float.  CPython answers nan, the infinities, zero and
    one itself; otherwise it calls [pow(|v|, 2.0)], and a result that
    overflowed to infinity is an [OverflowError].  A result that underflowed
    to zero is returned. *)
Definition float_pow2 (P : platform) (v : float) : result float :=
  let a := abs v in
  if is_nan a then Ok nan
  else if (a =? infinity)%float then Ok infinity
  else if (a =? 0)%float then Ok 0%float
  else if (a =? 1)%float then Ok 1%float
  else
    let r := c_pow2 P a in
    if (r =? infinity)%float then Raise OverflowError else Ok r.

(** [sum(l)] on floats, as CPython up to 3.11 computes it (the notebook ran
    on 3.7): left to right, starting from 0. *)
Definition py_sum (l : list float) : float := fold_left add l 0%float.

(** [sqrt(v)] of the [math] module on a float: the correctly rounded square
    root; a negative argument is a math domain error; nan and infinity are
    returned as they are.  (Its argument here is a sum of floats, so the
    conversion of a large integer, which can overflow, does not arise.) *)
Definition math_sqrt (v : float) : result float :=
  if (v <? 0)%float then Raise ValueError else Ok (sqrt v).

(** [range(n)]. *)
Definition range (n : nat) : list nat := seq 0 n.

(** ** Cell 3: the distance function *)

Abbreviation vector := (list float).
Abbreviation dataset := (list (list float)).
Abbreviation matrix := (list (list float)).

(** The list comprehension [[(x_ - y_)**2 for x_, y_ in zip(x, y)]]. *)
Definition sq_diffs (P : platform) (x y : vector) : result (list float) :=
  comprehension (fun p : float * float => float_pow2 P (p.1 - p.2)%float)
                (zip x y).

Definition eucl_dist (P : platform) (x y : vector) : result float :=
  l ← sq_diffs P x y;
  math_sqrt (py_sum l).

(** ** Cell 5: the sequential builder *)

Definition empty_square_matrix (n : nat) : matrix :=
  foldl (fun D _ =>
           let row := foldl (fun row _ => row ++ [0%float]) [] (range n) in
           D ++ [row])
        [] (range n).

(** [D[i][j] = v].  The rows of a matrix are distinct list objects (each is
    created by its own [row = []]), so updating [D[i]] in place changes row
    [i] of [D] and nothing else. *)
Definition setitem2 (D : matrix) (i j : nat) (v : float) : result matrix :=
  row ← getitem D i;
  row' ← setitem row j v;
  Ok (<[i := row']> D).

(** [D[i][j] = eucl_dist(X[i], X[j])]: the body of the builders' loops, and
    cell 21's [task]. *)
Definition task (P : platform) (D : matrix) (X : dataset) (i j : nat)
  : result matrix :=
  xi ← getitem X i;
  xj ← getitem X j;
  d ← eucl_dist P xi xj;
  setitem2 D i j d.

Definition eucl_dist_matrix (P : platform) (X : dataset) : result matrix :=
  let n := length X in
  let D := empty_square_matrix n in
  for_ (range n) (fun i D =>
    for_ (range n) (fun j D => task P D X i j) D) D.

(** ** Cell 9: a dataset of random numbers *)

(** The lists of [random_dataset] are objects in a store: [row] is appended
    to [X_rnd] while still empty and filled afterwards, through the same
    object.  [rs_rows] holds the list objects created so far (a reference is
    a position in it), [rs_X] the references held by [X_rnd], [rs_calls] the
    number of calls of [random.random()] made so far; [rnd c] is the result
    of call number [c]. *)
Record rd_state : Type := RdState {
  rs_rows : list (list float);
  rs_X : list nat;
  rs_calls : nat
}.

(** [row.append(random.random())] *)
Definition rd_append_random (rnd : nat -> float) (row : nat) (st : rd_state)
  : rd_state :=
  RdState (alter (fun l => l ++ [rnd (rs_calls st)]) row (rs_rows st))
          (rs_X st)
          (S (rs_calls st)).

(** One iteration of the outer loop: [row = []], [X_rnd.append(row)], and
    the inner loop. *)
Definition rd_new_row (rnd : nat -> float) (n : nat) (st : rd_state)
  : rd_state :=
  let row := length (rs_rows st) in
  let st := RdState (rs_rows st ++ [[]]) (rs_X st ++ [row]) (rs_calls st) in
  foldl (fun st _ => rd_append_random rnd row st) st (range n).

(** The list of lists a list of references stands for. *)
Definition rd_value (st : rd_state) : dataset :=
  map (fun row => default [] (rs_rows st !! row)) (rs_X st).

Definition random_dataset (rnd : nat -> float) (m n : nat) : dataset :=
  rd_value (foldl (fun st _ => rd_new_row rnd n st) (RdState [] [] 0) (range m)).

(** ** Cell 11: rows and columns in random order *)

(** [random.sample(range(n), k=n)] returns the population in some order.
    The source of randomness is a parameter: [sample c l] is the result of
    the [c]-th call, on population [l].  The outer loop makes call 0; its
    [k]-th iteration makes call [S k] for the order of the columns. *)
Definition eucl_dist_matrix_shuffled (P : platform)
    (sample : nat -> list nat -> list nat) (X : dataset) : result matrix :=
  let n := length X in
  let D := empty_square_matrix n in
  for_ (imap (fun k i => (k, i)) (sample 0 (range n)))
       (fun ki D =>
          for_ (sample (S ki.1) (range n)) (fun j D => task P D X ki.2 j) D)
       D.

(** ** Cells 21 and 25: one thread per cell, one thread per row *)

(** A thread that runs [task] or [task_2]: the row [i] it writes and the
    columns its loop has still to visit (for [task], the one column [j]). *)
Abbreviation thread := (nat * list nat)%type.

(** The next statement [D[i][j] = eucl_dist(X[i], X[j])] of thread number
    [t].  An exception ends the thread, and nobody hears of it; a thread that
    has finished, or a number that is no thread, has nothing to run. *)
Definition thread_step (P : platform) (X : dataset)
    (st : list thread * matrix) (t : nat) : list thread * matrix :=
  match st.1 !! t with
  | Some (i, j :: js) =>
      match task P st.2 X i j with
      | Ok D' => (<[t := (i, js)]> st.1, D')
      | Raise _ => (<[t := (i, [])]> st.1, st.2)
      end
  | _ => st
  end.

(** A thread run on its own until its loop is over or an exception ends
    it. *)
Fixpoint run_to_end (P : platform) (X : dataset) (i : nat) (js : list nat)
    (D : matrix) : matrix :=
  match js with
  | [] => D
  | j :: js' =>
      match task P D X i j with
      | Ok D' => run_to_end P X i js' D'
      | Raise _ => D
      end
  end.

(** The started threads take their steps in the order [sched] (a list of
    thread numbers) until main reaches [for t in threads: t.join()]; the
    joins then wait for whatever each thread has left.  Every interleaving
    of the threads' statements is the run of some [sched]. *)
Definition run_threads (P : platform) (X : dataset) (sched : list nat)
    (threads : list thread) (D : matrix) : matrix :=
  let st := foldl (thread_step P X) (threads, D) sched in
  foldl (fun D th => run_to_end P X th.1 th.2 D) st.2 st.1.

Definition eucl_dist_matrix_thr (P : platform) (sched : list nat)
    (X : dataset) : result matrix :=
  let n := length X in
  let D := empty_square_matrix n in
  let threads := range n ≫= (fun i => (fun j => (i, [j])) <$> range n) in
  Ok (run_threads P X sched threads D).

Definition eucl_dist_matrix_thr_2 (P : platform) (sched : list nat)
    (X : dataset) : result matrix :=
  let n := length X in
  let D := empty_square_matrix n in
  let threads := (fun i => (i, range (length X))) <$> range n in
  Ok (run_threads P X sched threads D).

(** ** Integer division and stepped ranges *)

(** [n // d] on Python integers: rounds towards minus infinity. *)
Definition floordiv (n : nat) (d : Z) : result Z :=
  if decide (d = 0%Z) then Raise ZeroDivisionError
  else Ok (Z.of_nat n / d)%Z.

(** [range(0, stop, step)] for [0 <= stop]: a zero step is a [ValueError],
    a negative step gives the empty range. *)
Definition range_step (stop : nat) (step : Z) : result (list nat) :=
  if decide (step = 0%Z) then Raise ValueError
  else if decide (step < 0)%Z then Ok []
  else
    let s := Z.to_nat step in
    Ok (map (fun q => q * s) (seq 0 ((stop + s - 1) / s))).

(** [range(a, b)]. *)
Definition range_from (a b : nat) : list nat := seq a (b - a).

(** ** Cell 31: one process per chunk of rows *)

Definition task_p (P : platform) (D : matrix) (X : dataset)
    (k chunk_size : nat) : result matrix :=
  for_ (range_from k (min (k + chunk_size) (length X))) (fun i D =>
    for_ (range (length X)) (fun j D => task P D X i j) D) D.

(** [Process(target=..., args=(D, ...))], started and joined: the child works
    on its own copy of [D], which is never sent back, so the parent's matrix
    is unchanged whatever the child does. *)
Definition run_process (target : matrix -> result matrix) (D : matrix)
  : matrix := D.

Definition eucl_dist_matrix_p (P : platform) (X : dataset) : result matrix :=
  let n := length X in
  let D := empty_square_matrix n in
  chunk_size ← floordiv n 8;
  starts ← range_step n chunk_size;
  Ok (foldl (fun D i =>
               run_process (fun D => task_p P D X i (Z.to_nat chunk_size)) D)
            D starts).

(** ** numpy arrays of floats *)

(** [np.array(X)] for a list of rows of floats, an array of float64: the
    rows must have one length. *)
Definition equal_length (X : dataset) : Prop :=
  match X with
  | [] => True
  | x0 :: _ => Forall (fun x => length x = length x0) X
  end.

#[global] Instance equal_length_dec X : Decision (equal_length X).
Proof. destruct X; simpl; apply _. Defined.

Definition np_array (X : dataset) : result dataset :=
  if decide (equal_length X) then Ok X else Raise ValueError.

(** [np.zeros((n, m))]. *)
Definition np_zeros (n m : nat) : matrix := replicate n (replicate m 0%float).

(** [l[i:j]] for [0 <= i <= j]: the bounds are clipped to the length. *)
Definition slice {A} (l : list A) (i j : nat) : list A :=
  take (j - i) (drop i l).

(** [D[i:j] = M] on a 2-d array whose rows are as wide as those of [M]: the
    rows of the slice are overwritten with the rows of [M]; a single row is
    broadcast to the whole slice; any other number of rows is a shape
    mismatch. *)
Definition set_slice (D : matrix) (i j : nat) (M : matrix) : result matrix :=
  let k := length (slice D i j) in
  if decide (length M = k) then Ok (take i D ++ M ++ drop (i + k) D)
  else
    match M with
    | [row] => Ok (take i D ++ replicate k row ++ drop (i + k) D)
    | _ => Raise ValueError
    end.

(** [xi - X]: the 1-d array [xi] against each row of the 2-d array [X],
    elementwise in IEEE arithmetic. *)
Definition np_sub_rows (xi : vector) (X : dataset) : matrix :=
  map (fun x => zip_with sub xi x) X.

(** [M ** 2] on an array of floats: elementwise [v * v]; an overflow gives
    infinity (and a warning), no exception. *)
Definition np_square (M : matrix) : matrix :=
  map (map (fun v => (v * v)%float)) M.

(** [np.sum(M, axis=-1)]: numpy's sum of each row. *)
Definition np_sum_rows (P : platform) (M : matrix) : vector :=
  map (np_sum P) M.

(** [np.sqrt(v)], elementwise; it raises nothing. *)
Definition np_sqrt (v : vector) : vector := map sqrt v.

(** [D[i] = v] on a 2-d array: a row of the same length is overwritten, a
    single number is broadcast, any other length is a shape mismatch. *)
Definition set_row (D : matrix) (i : nat) (v : vector) : result matrix :=
  row ← getitem D i;
  if decide (length v = length row) then Ok (<[i := v]> D)
  else
    match v with
    | [a] => Ok (<[i := replicate (length row) a]> D)
    | _ => Raise ValueError
    end.

(** [scipy.spatial.distance.cdist(XA, XB)] with its default metric: entry
    [(a, b)] is what scipy computes for row [a] of [XA] and row [b] of
    [XB]. *)
Definition cdist (P : platform) (XA XB : dataset) : matrix :=
  map (fun a => map (fun b => sp_euclidean P a b) XB) XA.

(** [Thread(target=..., args=(D, ...))], started and joined, for a target
    that makes one assignment: the thread writes into the shared [D]; an
    exception ends that thread only. *)
Definition run_thread (target : matrix -> result matrix) (D : matrix)
  : matrix :=
  match target D with
  | Ok D' => D'
  | Raise _ => D
  end.

(** ** Cell 35: one thread per row, the row computed by numpy *)

Definition task_3 (P : platform) (D : matrix) (X : dataset) (i : nat)
  : result matrix :=
  xi ← getitem X i;
  set_row D i (np_sqrt (np_sum_rows P (np_square (np_sub_rows xi X)))).

(** Each thread makes one row assignment; [sched] gives the order in which
    the assignments take effect. *)
Definition eucl_dist_matrix_thr_3 (P : platform)
    (sched : list nat -> list nat) (X : dataset) : result matrix :=
  X ← np_array X;
  let n := length X in
  let D := np_zeros n n in
  Ok (foldl (fun D i => run_thread (fun D => task_3 P D X i) D)
            D (sched (range n))).

(** ** Cells 38 and 41: chunks of rows through numpy and scipy *)

Definition task_4 (P : platform) (D : matrix) (X : dataset)
    (i chunk_size : nat) : result matrix :=
  set_slice D i (i + chunk_size) (cdist P (slice X i (i + chunk_size)) X).

(** Cell 41, without threads: the chunks one after the other. *)
Definition eucl_dist_matrix_4 (P : platform) (X : dataset) (n_jobs : Z)
  : result matrix :=
  X ← np_array X;
  let n := length X in
  let D := np_zeros n n in
  chunk_size ← floordiv n n_jobs;
  starts ← range_step n chunk_size;
  for_ starts (fun i D => task_4 P D X i (Z.to_nat chunk_size)) D.

(** Cell 38.  Each thread makes one slice assignment; [sched] gives the order
    in which the assignments of the started threads take effect.  All threads
    are joined before [D] is returned. *)
Definition eucl_dist_matrix_thr_4 (P : platform)
    (sched : list nat -> list nat) (X : dataset) (n_jobs : Z)
  : result matrix :=
  X ← np_array X;
  let n := length X in
  let D := np_zeros n n in
  chunk_size ← floordiv n n_jobs;
  starts ← range_step n chunk_size;
  Ok (foldl (fun D i =>
               run_thread (fun D => task_4 P D X i (Z.to_nat chunk_size)) D)
            D (sched starts)).

(** The default of the parameter [n_jobs]. *)
Definition n_jobs_default : Z := 8.

(** ** Cell 43: the chunks through joblib *)

Definition task_jl (P : platform) (D : matrix) (X : dataset)
    (i chunk_size : nat) : matrix :=
  cdist P (slice X i (i + chunk_size)) X.

(** [Parallel(...)(delayed(task_jl)(...) for i in range(...))] returns the
    list of the tasks' results, in the order of the tasks; that list is what
    the function returns. *)
Definition eucl_dist_matrix_jl (P : platform) (X : dataset) (n_jobs : Z)
  : result (list matrix) :=
  X ← np_array X;
  let n := length X in
  let D := np_zeros n n in
  chunk_size ← floordiv n n_jobs;
  starts ← range_step n chunk_size;
  Ok (map (fun i => task_jl P D X i (Z.to_nat chunk_size)) starts).

(** ** Reading a matrix, and the values the theorems speak of *)

(** [D[i][j]], when both indices are in range. *)
Definition cell (D : matrix) (i j : nat) : option float :=
  row ← D !! i; row !! j.

(** An [n]-by-[n] list of lists. *)
Definition square (n : nat) (D : matrix) : Prop :=
  length D = n /\ Forall (fun row => length row = n) D.

(** A float that is not negative: a zero, a positive number, plus infinity,
    or nan (which is neither negative nor non-negative). *)
Definition not_negative (s : spec_float) : Prop :=
  match s with
  | S754_zero _ | S754_nan => True
  | S754_infinity s | S754_finite s _ _ => s = false
  end.

(** The same without nan: the floats [v] with [0 <= v]. *)
Definition non_negative (s : spec_float) : Prop :=
  match s with
  | S754_zero _ => True
  | S754_nan => False
  | S754_infinity s | S754_finite s _ _ => s = false
  end.

(** A vector, and a dataset, without infinities and nan. *)
Definition finite_vector (x : vector) : bool := forallb is_finite x.

Definition finite_dataset (X : dataset) : Prop :=
  Forall (fun x => finite_vector x = true) X.

(** The float [v ** 2] is when it raises nothing; when it raises, the
    infinity that [pow] returned. *)
Definition pow2_value (P : platform) (v : float) : float :=
  match float_pow2 P v with
  | Ok r => r
  | Raise _ => infinity
  end.

(** The sum of the squared differences of the first [m] components, as the
    specification words it: one square per component, added in the order of
    the components. *)
Definition sum_sq_diff (P : platform) (m : nat) (x y : vector) : float :=
  fold_left add
    (map (fun i => pow2_value P (nth i x 0 - nth i y 0)%float) (seq 0 m))
    0%float.

(** Whether [eucl_dist] raises on two vectors, and the float it returns when
    it does not. *)
Definition raises (P : platform) (x y : vector) : bool :=
  match eucl_dist P x y with
  | Ok _ => false
  | Raise _ => true
  end.

Definition dist_value (P : platform) (x y : vector) : float :=
  match eucl_dist P x y with
  | Ok d => d
  | Raise _ => nan
  end.

(** The matrix of all pairwise distances, and whether the distance of some
    pair of rows raises. *)
Definition dist_matrix (P : platform) (X : dataset) : matrix :=
  map (fun xi => map (fun xj => dist_value P xi xj) X) X.

Definition raises_at (P : platform) (X : dataset) (p : nat * nat) : bool :=
  match X !! p.1, X !! p.2 with
  | Some xi, Some xj => raises P xi xj
  | _, _ => false
  end.

Definition overflowing (P : platform) (X : dataset) : bool :=
  existsb (raises_at P X)
          (range (length X) ≫= fun i => pair i <$> range (length X)).

(** The row [np.sqrt(np.sum((xi - X) ** 2, axis=-1))] that [task_3] assigns
    for [xi = X[i]]. *)
Definition np_row (P : platform) (xi : vector) (X : dataset) : vector :=
  np_sqrt (np_sum_rows P (np_square (np_sub_rows xi X))).

(** The columns a thread of row [i] writes before an exception ends it,
    and the cells a list of threads has still to write. *)
Fixpoint ok_prefix (P : platform) (X : dataset) (i : nat) (js : list nat)
  : list nat :=
  match js with
  | [] => []
  | j :: js' => if raises_at P X (i, j) then [] else j :: ok_prefix P X i js'
  end.

Definition to_write (P : platform) (X : dataset) (ths : list thread)
  : list (nat * nat) :=
  ths ≫= fun th => pair th.1 <$> ok_prefix P X th.1 th.2.

(** What the threads of cells 21 and 25 keep true while they run, [W]
    being the cells to write at the start and [D0] the matrix at the start:
    the matrix is square, every thread writes in range and only cells of
    [W], each cell of [W] either holds its distance already or is still to
    be written by some thread, and every other cell is as it was. *)
Definition threads_inv (P : platform) (X : dataset) (W : list (nat * nat))
    (D0 : matrix) (st : list thread * matrix) : Prop :=
  square (length X) st.2 /\
  (forall i js, (i, js) ∈ st.1 ->
     i < length X /\ forall j, j ∈ js -> j < length X) /\
  (forall c, c ∈ to_write P X st.1 -> c ∈ W) /\
  (forall i j, i < length X -> j < length X ->
     if decide ((i, j) ∈ W)
     then cell st.2 i j = cell (dist_matrix P X) i j
          \/ (i, j) ∈ to_write P X st.1
     else cell st.2 i j = cell D0 i j).

(** * Properties *)

(** ** The error monad and loops *)

Lemma bind_Ok {A B} (a : A) (k : A -> result B) : (Ok a ≫= k) = k a.
Proof. reflexivity. Qed.

Lemma for_app {I S} (l1 l2 : list I) (body : I -> S -> result S) (s : S) :
  for_ (l1 ++ l2) body s = (s' ← for_ l1 body s; for_ l2 body s').
Proof.
  revert s. induction l1 as [|i l1 IH]; intros s; simpl; [reflexivity|].
  destruct (body i s) as [s'|e]; simpl; [apply IH | reflexivity].
Qed.

(** A loop whose body cannot fail is a left fold. *)
Lemma for_pure {I S} (l : list I) (body : I -> S -> result S)
    (f : S -> I -> S) (Q : S -> Prop) (s : S) :
  (forall i s, i ∈ l -> Q s -> body i s = Ok (f s i) /\ Q (f s i)) ->
  Q s ->
  for_ l body s = Ok (foldl f s l) /\ Q (foldl f s l).
Proof.
  revert s. induction l as [|i l IH]; intros s Hb Hs; simpl; [done|].
  destruct (Hb i s) as [-> Hs']; [left | done |]. simpl.
  apply IH; [|done]. intros i' s'' Hi'. apply Hb. by right.
Qed.

Lemma for_fmap {I J S} (f : I -> J) (l : list I) (body : J -> S -> result S) s :
  for_ (f <$> l) body s = for_ l (fun i => body (f i)) s.
Proof.
  revert s. induction l as [|i l IH]; intros s; simpl; [done|].
  destruct (body (f i) s); simpl; [apply IH | done].
Qed.

(** Nested loops over rows and columns visit the pairs of the flattened
    list. *)
Lemma for_nested {B S} (row_of : B -> nat) (cols : B -> list nat)
    (body : nat * nat -> S -> result S) (blocks : list B) (s : S) :
  for_ blocks (fun b s => for_ (cols b) (fun j s => body (row_of b, j) s) s) s
  = for_ (blocks ≫= fun b => pair (row_of b) <$> cols b) body s.
Proof.
  revert s. induction blocks as [|b blocks IH]; intros s; [done|].
  cbn [for_ mbind list_bind]. rewrite for_app, for_fmap.
  destruct (for_ (cols b) _ s); simpl; [apply IH | done].
Qed.

(** ** Facts of binary64 arithmetic *)

Section float_facts.
Local Open Scope float_scope.

(** Rounding keeps the sign. *)
Lemma binary_round_aux_sign prec emax s m e l :
  match binary_round_aux prec emax s m e l with
  | S754_zero s' | S754_infinity s' | S754_finite s' _ _ => s' = s
  | S754_nan => True
  end.
Proof.
  unfold binary_round_aux.
  destruct (shr_fexp prec emax m e l) as [mrs' e'].
  destruct (shr_fexp prec emax _ e' loc_Exact) as [mrs'' e''].
  destruct (shr_m mrs'') as [|p|p]; try done.
  by destruct (Z.leb e'' _).
Qed.

Lemma not_negative_round_aux prec emax m e l :
  not_negative (binary_round_aux prec emax false m e l).
Proof.
  pose proof (binary_round_aux_sign prec emax false m e l) as H.
  by destruct (binary_round_aux prec emax false m e l).
Qed.

Lemma not_negative_round prec emax m e :
  not_negative (binary_round prec emax false m e).
Proof.
  unfold binary_round. destruct (shl_align m e _) as [mz ez].
  apply not_negative_round_aux.
Qed.

Lemma not_negative_SFadd prec emax x y :
  not_negative x -> not_negative y -> not_negative (SFadd prec emax x y).
Proof.
  destruct x as [sx|sx| |sx mx ex], y as [sy|sy| |sy my ey]; simpl;
    intros Hx Hy; subst; try done.
  - by destruct sx, sy.
  - unfold binary_normalize. simpl. apply not_negative_round.
Qed.

Lemma not_negative_add x y :
  not_negative (Prim2SF x) -> not_negative (Prim2SF y) ->
  not_negative (Prim2SF (x + y)).
Proof. rewrite add_spec. apply not_negative_SFadd. Qed.

Lemma not_negative_sqrt x : not_negative (Prim2SF (sqrt x)).
Proof.
  rewrite sqrt_spec. unfold SF64sqrt.
  destruct (Prim2SF x) as [sx|sx| |sx mx ex]; simpl; try done.
  - by destruct sx.
  - destruct sx; [done|].
    destruct (SFsqrt_core_binary prec emax (Z.pos mx) ex) as [[mz ez] lz].
    apply not_negative_round_aux.
Qed.

(** Python's [v < 0] is false exactly on the floats that are not
    negative. *)
Lemma not_negative_ltb x : not_negative (Prim2SF x) <-> (x <? 0) = false.
Proof.
  rewrite FloatAxioms.ltb_spec. change (Prim2SF 0) with (S754_zero false).
  unfold SFltb. destruct (Prim2SF x) as [s|s| |s m e]; simpl; try done.
  - by destruct s.
  - by destruct s.
Qed.

(** Python's [0 <= v] is true on them, nan apart. *)
Lemma not_negative_leb x :
  not_negative (Prim2SF x) -> (0 <=? x) = true \/ is_nan x = true.
Proof.
  intros H. unfold is_nan.
  rewrite FloatAxioms.leb_spec, FloatAxioms.eqb_spec.
  change (Prim2SF 0) with (S754_zero false).
  unfold SFleb, SFeqb.
  destruct (Prim2SF x) as [s|s| |s m e]; simpl in *; subst; auto.
Qed.

(** [x - y] and [y - x] differ in sign at most. *)
Lemma SFabs_round_aux prec emax s s' m e l :
  SFabs (binary_round_aux prec emax s m e l)
  = SFabs (binary_round_aux prec emax s' m e l).
Proof.
  unfold binary_round_aux.
  destruct (shr_fexp prec emax m e l) as [mrs' e'].
  destruct (shr_fexp prec emax _ e' loc_Exact) as [mrs'' e''].
  destruct (shr_m mrs'') as [|p|p]; try done.
  by destruct (Z.leb e'' _).
Qed.

Lemma SFabs_normalize_opp prec emax m e sz :
  SFabs (binary_normalize prec emax (- m) e sz)
  = SFabs (binary_normalize prec emax m e sz).
Proof.
  destruct m as [|p|p]; simpl; try done; unfold binary_round;
    destruct (shl_align p e _) as [mz ez]; apply SFabs_round_aux.
Qed.

Lemma SFabs_SFsub_sym prec emax x y :
  SFabs (SFsub prec emax x y) = SFabs (SFsub prec emax y x).
Proof.
  destruct x as [sx|sx| |sx mx ex], y as [sy|sy| |sy my ey]; simpl; try done.
  - by destruct sx, sy.
  - by destruct sx, sy.
  - rewrite (Z.min_comm ey ex).
    rewrite <- SFabs_normalize_opp. f_equal. f_equal. lia.
Qed.

Lemma abs_sub_sym x y : abs (x - y) = abs (y - x).
Proof.
  apply Prim2SF_inj. rewrite !abs_spec, !sub_spec. apply SFabs_SFsub_sym.
Qed.

(** A finite float minus itself is [+0.0]. *)
Lemma is_finite_SF x :
  is_finite x = true ->
  match Prim2SF x with
  | S754_zero _ | S754_finite _ _ _ => True
  | _ => False
  end.
Proof.
  unfold is_finite, is_nan, is_infinity.
  rewrite !FloatAxioms.eqb_spec, abs_spec.
  change (Prim2SF infinity) with (S754_infinity false).
  destruct (Prim2SF x) as [s|[]| |s m e]; simpl; try done.
Qed.

Lemma sub_diag x : is_finite x = true -> x - x = 0.
Proof.
  intros H. apply Prim2SF_inj. rewrite sub_spec.
  change (Prim2SF 0) with (S754_zero false).
  apply is_finite_SF in H. unfold SF64sub.
  destruct (Prim2SF x) as [s|s| |s m e]; simpl; try done.
  - by destruct s.
  - rewrite Z.min_id, Z.sub_diag. reflexivity.
Qed.

(** Rounding never turns a number that is not negative into a nan. *)
Lemma shr_1_m mrs : (0 <= shr_m mrs)%Z -> (0 <= shr_m (shr_1 mrs))%Z.
Proof. destruct mrs as [[|[p|p|]|p] r s]; simpl; lia. Qed.

Lemma iter_pos_shr_1_m p mrs :
  (0 <= shr_m mrs)%Z -> (0 <= shr_m (SpecFloat.iter_pos shr_1 p mrs))%Z.
Proof.
  revert mrs. induction p as [p IH|p IH|]; intros mrs H; simpl.
  - apply IH, IH. by apply shr_1_m.
  - by apply IH, IH.
  - by apply shr_1_m.
Qed.

Lemma shr_fexp_m prec emax m e l :
  (0 <= m)%Z -> (0 <= shr_m (shr_fexp prec emax m e l).1)%Z.
Proof.
  intros Hm. unfold shr_fexp, shr.
  assert (0 <= shr_m (shr_record_of_loc m l))%Z as H0
    by (by destruct l as [|[]]).
  destruct (fexp prec emax (Zdigits2 m + e) - e)%Z; simpl; try done.
  by apply iter_pos_shr_1_m.
Qed.

Lemma round_nearest_even_m m l :
  (0 <= m)%Z -> (0 <= round_nearest_even m l)%Z.
Proof.
  intros Hm. destruct l as [|[]]; simpl; try lia.
  destruct (Z.even m); lia.
Qed.

(** Rounding a number that is not negative gives no nan and keeps the
    sign. *)
Lemma binary_round_aux_pos prec emax s m e l :
  (0 <= m)%Z ->
  match binary_round_aux prec emax s m e l with
  | S754_zero s' | S754_infinity s' | S754_finite s' _ _ => s' = s
  | S754_nan => False
  end.
Proof.
  intros Hm. unfold binary_round_aux.
  pose proof (shr_fexp_m prec emax m e l Hm) as H1.
  destruct (shr_fexp prec emax m e l) as [mrs' e'].
  simpl in H1.
  pose proof (shr_fexp_m prec emax
                (round_nearest_even (shr_m mrs') (loc_of_shr_record mrs'))
                e' loc_Exact (round_nearest_even_m _ _ H1)) as H2.
  destruct (shr_fexp prec emax _ e' loc_Exact) as [mrs'' e''].
  simpl in H2.
  destruct (shr_m mrs'') as [|p|p]; try done.
  by destruct (Z.leb e'' _).
Qed.

Lemma non_negative_round_aux prec emax m e l :
  (0 <= m)%Z -> non_negative (binary_round_aux prec emax false m e l).
Proof.
  intros Hm. pose proof (binary_round_aux_pos prec emax false m e l Hm) as H.
  by destruct (binary_round_aux prec emax false m e l).
Qed.

Lemma non_negative_round prec emax m e :
  non_negative (binary_round prec emax false m e).
Proof.
  unfold binary_round. destruct (shl_align m e _) as [mz ez].
  by apply non_negative_round_aux.
Qed.

Lemma not_nan_round prec emax s m e :
  binary_round prec emax s m e <> S754_nan.
Proof.
  unfold binary_round. destruct (shl_align m e _) as [mz ez].
  pose proof (binary_round_aux_pos prec emax s (Z.pos mz) ez loc_Exact) as H.
  destruct (binary_round_aux prec emax s (Z.pos mz) ez loc_Exact); try done.
  intros _. by apply H.
Qed.

Lemma not_nan_normalize prec emax m e sz :
  binary_normalize prec emax m e sz <> S754_nan.
Proof. destruct m; simpl; [done | apply not_nan_round | apply not_nan_round]. Qed.

Lemma non_negative_SFadd prec emax x y :
  non_negative x -> non_negative y -> non_negative (SFadd prec emax x y).
Proof.
  destruct x as [sx|sx| |sx mx ex], y as [sy|sy| |sy my ey]; simpl;
    intros Hx Hy; subst; try done.
  - by destruct sx, sy.
  - unfold binary_normalize. simpl. apply non_negative_round.
Qed.

Lemma non_negative_SFsqrt prec emax x :
  non_negative x -> non_negative (SFsqrt prec emax x).
Proof.
  destruct x as [sx|sx| |sx mx ex]; simpl; intros Hx; subst; try done.
  unfold SFsqrt_core_binary.
  destruct (Z.sqrtrem _) as [q r] eqn:Hq.
  apply non_negative_round_aux.
  change q with (fst (q, r)). rewrite <- Hq, Z.sqrtrem_sqrt.
  apply Z.sqrt_nonneg.
Qed.

Lemma non_negative_SFmul prec emax x :
  non_negative x -> non_negative (SFmul prec emax x x).
Proof.
  destruct x as [sx|sx| |sx mx ex]; simpl; intros Hx; subst; try done.
  by apply non_negative_round_aux.
Qed.

(** The difference of two finite numbers is no nan. *)
Lemma not_nan_SFsub prec emax x y :
  match x with S754_zero _ | S754_finite _ _ _ => True | _ => False end ->
  match y with S754_zero _ | S754_finite _ _ _ => True | _ => False end ->
  SFsub prec emax x y <> S754_nan.
Proof.
  destruct x as [sx|sx| |sx mx ex], y as [sy|sy| |sy my ey]; simpl;
    intros Hx Hy; try done.
  - by destruct sx, sy.
  - apply not_nan_normalize.
Qed.

(** Python's [0 <= v]. *)
Lemma non_negative_leb x : non_negative (Prim2SF x) <-> (0 <=? x) = true.
Proof.
  rewrite FloatAxioms.leb_spec. change (Prim2SF 0) with (S754_zero false).
  unfold SFleb. by destruct (Prim2SF x) as [[]|[]| |[] m e].
Qed.

Lemma add_non_negative x y :
  (0 <=? x) = true -> (0 <=? y) = true -> (0 <=? x + y) = true.
Proof.
  rewrite <- !non_negative_leb, add_spec. apply non_negative_SFadd.
Qed.

Lemma sqrt_non_negative x : (0 <=? x) = true -> (0 <=? sqrt x) = true.
Proof.
  rewrite <- !non_negative_leb, sqrt_spec. apply non_negative_SFsqrt.
Qed.

Lemma mul_self_non_negative a : (0 <? a) = true -> (0 <=? a * a) = true.
Proof.
  rewrite <- non_negative_leb, FloatAxioms.ltb_spec, mul_spec.
  change (Prim2SF 0) with (S754_zero false). unfold SFltb.
  intros Ha. apply non_negative_SFmul.
  by destruct (Prim2SF a) as [[]|[]| |[] m e].
Qed.

Lemma non_negative_not_negative s : non_negative s -> not_negative s.
Proof. by destruct s. Qed.

Lemma is_nan_SF x : is_nan x = true <-> Prim2SF x = S754_nan.
Proof.
  unfold is_nan. rewrite negb_true_iff, FloatAxioms.eqb_spec. unfold SFeqb.
  destruct (Prim2SF x) as [s|s| |s m e]; simpl; try done.
  - by destruct s.
  - destruct s; simpl; rewrite ?Z.compare_refl, ?Pos.compare_refl;
      simpl; rewrite ?Pos.compare_refl; done.
Qed.

Lemma non_negative_not_nan x : (0 <=? x) = true -> is_nan x = false.
Proof.
  rewrite <- non_negative_leb. intros H.
  apply not_true_is_false. rewrite is_nan_SF. intros Hn. by rewrite Hn in H.
Qed.

(** A number that is not nan equals itself. *)
Lemma eqb_refl x : is_nan x = false -> (x =? x) = true.
Proof. unfold is_nan. by rewrite negb_false_iff. Qed.

Lemma sub_not_nan x y :
  is_finite x = true -> is_finite y = true -> is_nan (x - y) = false.
Proof.
  intros Hx Hy. apply is_finite_SF in Hx, Hy.
  apply not_true_is_false. rewrite is_nan_SF, sub_spec.
  by apply not_nan_SFsub.
Qed.

(** An infinity or a nan minus itself is nan. *)
Lemma sub_diag_nan x : is_finite x = false -> x - x = nan.
Proof.
  intros H. apply Prim2SF_inj. rewrite sub_spec.
  change (Prim2SF nan) with S754_nan.
  revert H. unfold is_finite, is_nan, is_infinity.
  rewrite !FloatAxioms.eqb_spec, abs_spec.
  change (Prim2SF infinity) with (S754_infinity false).
  unfold SF64sub.
  destruct (Prim2SF x) as [s|[]| |s m e]; simpl; try done.
  unfold SFeqb.
  destruct s; simpl; rewrite ?Z.compare_refl, ?Pos.compare_refl;
    simpl; rewrite ?Pos.compare_refl; done.
Qed.

Lemma add_nan_l x : nan + x = nan.
Proof.
  apply Prim2SF_inj. rewrite add_spec. change (Prim2SF nan) with S754_nan.
  reflexivity.
Qed.

(** The absolute value of a number is not negative, and positive when it
    is not zero. *)
Lemma is_nan_abs v : is_nan (abs v) = is_nan v.
Proof.
  apply eq_true_iff_eq. rewrite !is_nan_SF, abs_spec.
  by destruct (Prim2SF v).
Qed.

Lemma abs_positive v :
  is_nan (abs v) = false -> (abs v =? 0) = false -> (0 <? abs v) = true.
Proof.
  intros Hn. apply not_true_iff_false in Hn. rewrite is_nan_SF in Hn.
  revert Hn. rewrite FloatAxioms.eqb_spec, FloatAxioms.ltb_spec, abs_spec.
  change (Prim2SF 0) with (S754_zero false). unfold SFeqb, SFltb.
  by destruct (Prim2SF v) as [[]|[]| |[] m e].
Qed.

End float_facts.

(** ** A platform for worked examples *)

Lemma mul_self_small k :
  k < 256 -> (float_of_nat k * float_of_nat k)%float = float_of_nat (k * k).
Proof.
  intros Hk.
  assert (forallb (fun k => PrimFloat.Leibniz.eqb
                     (float_of_nat k * float_of_nat k)%float
                     (float_of_nat (k * k)))
                  (seq 0 256) = true) as Hall by (vm_compute; reflexivity).
  rewrite forallb_forall in Hall.
  apply FloatAxioms.Leibniz.eqb_spec, Hall, in_seq. lia.
Qed.

(** The platform on which [pow(a, 2.0)] is the correctly rounded [a * a],
    [np.sum] adds from left to right, and scipy computes the square root of
    the sum of the squares of the differences the same way. *)
Definition correctly_rounded : platform :=
  {| c_pow2 := fun a => (a * a)%float;
     c_pow2_non_negative := mul_self_non_negative;
     c_pow2_small := mul_self_small;
     np_sum := fun l => fold_left add l 0%float;
     sp_euclidean := fun x y =>
       sqrt (fold_left add
               (map (fun p : float * float =>
                       ((p.1 - p.2) * (p.1 - p.2))%float)
                    (zip x y))
               0%float) |}.

(** ** Squares, sums and square roots of floats *)

Section distance.
Local Open Scope float_scope.
Context (P : platform).

Lemma float_pow2_sym x y : float_pow2 P (x - y) = float_pow2 P (y - x).
Proof. unfold float_pow2. by rewrite abs_sub_sym. Qed.

Lemma float_pow2_zero : float_pow2 P 0 = Ok 0.
Proof. reflexivity. Qed.

(** The square of a nan is nan; any other square is a number that is not
    negative; and [**] raises nothing but [OverflowError]. *)
Lemma float_pow2_Ok v r :
  float_pow2 P v = Ok r ->
  (is_nan v = true /\ r = nan) \/ (is_nan v = false /\ (0 <=? r) = true).
Proof.
  unfold float_pow2. cbv zeta. rewrite <- (is_nan_abs v).
  destruct (is_nan (abs v)) eqn:Hn; [intros [= <-]; by left|].
  intros H. right. split; [done|]. revert H.
  destruct (abs v =? infinity); [by intros [= <-]|].
  destruct (abs v =? 0) eqn:H0; [by intros [= <-]|].
  destruct (abs v =? 1); [by intros [= <-]|].
  destruct (c_pow2 P (abs v) =? infinity); [done|]. intros [= <-].
  by apply c_pow2_non_negative, abs_positive.
Qed.

Lemma float_pow2_not_negative v r :
  float_pow2 P v = Ok r -> not_negative (Prim2SF r).
Proof.
  intros [[_ ->]|[_ Hr]]%float_pow2_Ok; [exact I|].
  by apply non_negative_not_negative, non_negative_leb.
Qed.

Lemma float_pow2_Raise v e : float_pow2 P v = Raise e -> e = OverflowError.
Proof. unfold float_pow2. repeat case_match; by intros [= <-]. Qed.

Lemma pow2_value_Ok v r : float_pow2 P v = Ok r -> pow2_value P v = r.
Proof. intros H. unfold pow2_value. by rewrite H. Qed.

(** The square of a small integer, up to sign. *)
Lemma float_pow2_small v k :
  2 <= k < 256 -> abs v = float_of_nat k ->
  float_pow2 P v = Ok (float_of_nat (k * k)).
Proof.
  intros Hk Habs. unfold float_pow2. rewrite Habs, c_pow2_small by lia.
  assert (forallb (fun k =>
            negb (is_nan (float_of_nat k))
            && negb (float_of_nat k =? infinity)
            && negb (float_of_nat k =? 0)
            && negb (float_of_nat k =? 1)
            && negb (float_of_nat (k * k) =? infinity))
          (seq 2 254) = true) as Hall by (vm_compute; reflexivity).
  rewrite forallb_forall in Hall. specialize (Hall k).
  rewrite !andb_true_iff, !negb_true_iff in Hall.
  destruct Hall as [[[[-> ->] ->] ->] ->]; [|done]. apply in_seq. lia.
Qed.

Lemma sq_diffs_nil_l y : sq_diffs P [] y = Ok [].
Proof. reflexivity. Qed.

Lemma sq_diffs_nil_r x : sq_diffs P x [] = Ok [].
Proof. by destruct x. Qed.

Lemma sq_diffs_cons a b x y :
  sq_diffs P (a :: x) (b :: y)
  = (r ← float_pow2 P (a - b); rs ← sq_diffs P x y; Ok (r :: rs)).
Proof. reflexivity. Qed.

Lemma sq_diffs_sym x y : sq_diffs P x y = sq_diffs P y x.
Proof.
  revert y. induction x as [|a x IH]; intros [|b y];
    rewrite ?sq_diffs_nil_l, ?sq_diffs_nil_r, ?sq_diffs_cons; try done.
  by rewrite float_pow2_sym, IH.
Qed.

(** The comprehension over [zip(x, y)] stops with the shorter vector. *)
Lemma sq_diffs_take x y :
  sq_diffs P (take (min (length x) (length y)) x)
             (take (min (length x) (length y)) y)
  = sq_diffs P x y.
Proof.
  revert y. induction x as [|a x IH]; intros [|b y]; try done.
  cbn [length Nat.min take]. rewrite !sq_diffs_cons. by rewrite IH.
Qed.

(** When the comprehension raises nothing, it holds one square per
    component of the shorter vector, none of them negative. *)
Lemma sq_diffs_Ok x y l :
  sq_diffs P x y = Ok l ->
  l = map (fun i => pow2_value P (nth i x 0 - nth i y 0))
          (seq 0 (min (length x) (length y)))
  /\ Forall (fun r => not_negative (Prim2SF r)) l
  /\ forall i, (i < min (length x) (length y))%nat ->
       float_pow2 P (nth i x 0 - nth i y 0)
       = Ok (pow2_value P (nth i x 0 - nth i y 0)).
Proof.
  revert y l. induction x as [|a x IH]; intros [|b y] l;
    rewrite ?sq_diffs_nil_l, ?sq_diffs_nil_r, ?sq_diffs_cons.
  - intros [= <-]. split; [done|]. split; [done|]. simpl. lia.
  - intros [= <-]. split; [done|]. split; [done|]. simpl. lia.
  - intros [= <-]. split; [done|]. split; [done|]. simpl. lia.
  - destruct (float_pow2 P (a - b)) as [r|e] eqn:Hr; [|done].
    destruct (sq_diffs P x y) as [rs|e] eqn:Hrs; [|done].
    rewrite !bind_Ok. intros [= <-].
    destruct (IH y rs Hrs) as (-> & Hnn & Hall).
    cbn [length Nat.min seq map nth]. split; [|split].
    + f_equal; [by rewrite (pow2_value_Ok _ _ Hr)|].
      rewrite <- seq_shift, map_map. reflexivity.
    + constructor; [by eapply float_pow2_not_negative | done].
    + intros [|i] Hi; cbn [nth].
      * by rewrite (pow2_value_Ok _ _ Hr).
      * apply Hall. lia.
Qed.

(** When it raises, some square of the shorter vector's components
    overflowed. *)
Lemma sq_diffs_Raise x y e :
  sq_diffs P x y = Raise e ->
  e = OverflowError /\
  exists i, (i < min (length x) (length y))%nat /\
    float_pow2 P (nth i x 0 - nth i y 0) = Raise OverflowError.
Proof.
  revert y. induction x as [|a x IH]; intros [|b y];
    rewrite ?sq_diffs_nil_l, ?sq_diffs_nil_r, ?sq_diffs_cons; try done.
  destruct (float_pow2 P (a - b)) as [r|e'] eqn:Hr.
  - rewrite bind_Ok. destruct (sq_diffs P x y) as [rs|e'] eqn:Hrs; [done|].
    intros [= <-]. destruct (IH y Hrs) as (-> & i & Hi & Hraise).
    split; [done|]. exists (S i). cbn [length Nat.min nth].
    split; [lia | done].
  - intros [= <-]. pose proof (float_pow2_Raise _ _ Hr) as ->.
    split; [done|]. exists 0%nat. cbn [length Nat.min nth].
    split; [lia | done].
Qed.

Lemma fold_add_not_negative l acc :
  not_negative (Prim2SF acc) ->
  Forall (fun r => not_negative (Prim2SF r)) l ->
  not_negative (Prim2SF (fold_left add l acc)).
Proof.
  intros Hacc Hl. revert acc Hacc.
  induction Hl as [|r l Hr _ IH]; intros acc Hacc; simpl; [done|].
  apply IH. by apply not_negative_add.
Qed.

Lemma py_sum_not_negative l :
  Forall (fun r => not_negative (Prim2SF r)) l ->
  not_negative (Prim2SF (py_sum l)).
Proof. apply fold_add_not_negative. exact I. Qed.

Lemma math_sqrt_not_negative v :
  not_negative (Prim2SF v) -> math_sqrt v = Ok (sqrt v).
Proof.
  intros Hv. unfold math_sqrt. apply not_negative_ltb in Hv. by rewrite Hv.
Qed.

(** [math.sqrt] never sees a negative sum: [eucl_dist] returns the square
    root of the sum of the squares, or raises [OverflowError] with the
    comprehension. *)
Lemma eucl_dist_outcome x y :
  match sq_diffs P x y with
  | Ok l => eucl_dist P x y = Ok (sqrt (py_sum l))
  | Raise _ => eucl_dist P x y = Raise OverflowError
  end.
Proof.
  unfold eucl_dist. destruct (sq_diffs P x y) as [l|e] eqn:Hl.
  - rewrite bind_Ok. apply math_sqrt_not_negative, py_sum_not_negative.
    by apply (sq_diffs_Ok x y l).
  - by destruct (sq_diffs_Raise x y e Hl) as [-> _].
Qed.

Lemma eucl_dist_cases x y :
  (eucl_dist P x y = Ok (dist_value P x y) /\ raises P x y = false)
  \/ (eucl_dist P x y = Raise OverflowError /\ raises P x y = true).
Proof.
  pose proof (eucl_dist_outcome x y) as H. unfold dist_value, raises.
  destruct (sq_diffs P x y); rewrite H; auto.
Qed.

Lemma eucl_dist_formula x y :
  (eucl_dist P x y = Raise OverflowError /\
   exists i, (i < min (length x) (length y))%nat /\
     float_pow2 P (nth i x 0 - nth i y 0) = Raise OverflowError)
  \/ (eucl_dist P x y
      = Ok (sqrt (sum_sq_diff P (min (length x) (length y)) x y)) /\
      forall i, (i < min (length x) (length y))%nat ->
        float_pow2 P (nth i x 0 - nth i y 0)
        = Ok (pow2_value P (nth i x 0 - nth i y 0))).
Proof.
  pose proof (eucl_dist_outcome x y) as H.
  destruct (sq_diffs P x y) as [l|e] eqn:Hl.
  - right. destruct (sq_diffs_Ok x y l Hl) as (-> & _ & Hall).
    split; [exact H | exact Hall].
  - left. split; [exact H|]. by destruct (sq_diffs_Raise x y e Hl) as [_ ?].
Qed.

Lemma eucl_dist_not_negative x y d :
  eucl_dist P x y = Ok d -> (0 <=? d) = true \/ is_nan d = true.
Proof.
  pose proof (eucl_dist_outcome x y) as H.
  destruct (sq_diffs P x y) as [l|e]; rewrite H; [|done].
  intros [= <-]. apply not_negative_leb, not_negative_sqrt.
Qed.

Lemma eucl_dist_sym x y : eucl_dist P x y = eucl_dist P y x.
Proof. unfold eucl_dist. by rewrite sq_diffs_sym. Qed.

Lemma eucl_dist_take x y :
  eucl_dist P (take (min (length x) (length y)) x)
              (take (min (length x) (length y)) y)
  = eucl_dist P x y.
Proof. unfold eucl_dist. by rewrite sq_diffs_take. Qed.

Lemma raises_sym x y : raises P x y = raises P y x.
Proof. unfold raises. by rewrite eucl_dist_sym. Qed.

Lemma dist_value_sym x y : dist_value P x y = dist_value P y x.
Proof. unfold dist_value. by rewrite eucl_dist_sym. Qed.

(** On finite vectors the distance is a number (no nan) that is not
    negative. *)
Lemma finite_vector_cons a x :
  finite_vector (a :: x) = true <-> is_finite a = true /\ finite_vector x = true.
Proof. unfold finite_vector. simpl. apply andb_true_iff. Qed.

Lemma sq_diffs_finite x y l :
  finite_vector x = true -> finite_vector y = true ->
  sq_diffs P x y = Ok l -> Forall (fun r => (0 <=? r) = true) l.
Proof.
  revert y l. induction x as [|a x IH]; intros [|b y] l;
    rewrite ?sq_diffs_nil_l, ?sq_diffs_nil_r, ?sq_diffs_cons;
    try (intros _ _ [= <-]; constructor).
  intros [Ha Hx]%finite_vector_cons [Hb Hy]%finite_vector_cons.
  destruct (float_pow2 P (a - b)) as [r|e] eqn:Hr; [|done]. rewrite bind_Ok.
  destruct (sq_diffs P x y) as [rs|e] eqn:Hrs; [|done]. intros [= <-].
  constructor; [|by apply (IH y)].
  destruct (float_pow2_Ok _ _ Hr) as [[Hn _]|[_ H]]; [|done].
  by rewrite (sub_not_nan a b Ha Hb) in Hn.
Qed.

Lemma fold_add_non_negative l acc :
  (0 <=? acc) = true ->
  Forall (fun r => (0 <=? r) = true) l ->
  (0 <=? fold_left add l acc) = true.
Proof.
  intros Hacc Hl. revert acc Hacc.
  induction Hl as [|r l Hr _ IH]; intros acc Hacc; simpl; [done|].
  apply IH. by apply add_non_negative.
Qed.

Lemma eucl_dist_finite x y d :
  finite_vector x = true -> finite_vector y = true ->
  eucl_dist P x y = Ok d -> (0 <=? d) = true.
Proof.
  intros Hx Hy. pose proof (eucl_dist_outcome x y) as H.
  destruct (sq_diffs P x y) as [l|e] eqn:Hl; rewrite H; [|done].
  intros [= <-]. apply sqrt_non_negative, fold_add_non_negative; [done|].
  by apply (sq_diffs_finite x y).
Qed.

(** The distance of a vector from itself: [0.0] if it holds finite numbers
    only, and nan otherwise; nothing is raised. *)
Lemma sq_diffs_self x :
  sq_diffs P x x = Ok (map (fun v => if is_finite v then 0 else nan) x).
Proof.
  induction x as [|a x IH]; [done|].
  rewrite sq_diffs_cons, IH. cbn [map].
  destruct (is_finite a) eqn:Ha.
  - by rewrite (sub_diag a Ha).
  - by rewrite (sub_diag_nan a Ha).
Qed.

Lemma fold_add_nan l : fold_left add l nan = nan.
Proof. induction l as [|r l IH]; [done|]. simpl. by rewrite add_nan_l. Qed.

Lemma py_sum_self x :
  py_sum (map (fun v => if is_finite v then 0 else nan) x)
  = if finite_vector x then 0 else nan.
Proof.
  unfold py_sum, finite_vector. induction x as [|a x IH]; [done|].
  cbn [map fold_left forallb]. destruct (is_finite a); simpl.
  - exact IH.
  - apply fold_add_nan.
Qed.

Lemma eucl_dist_self x :
  eucl_dist P x x = Ok (if finite_vector x then 0 else nan).
Proof.
  unfold eucl_dist. rewrite sq_diffs_self, bind_Ok, py_sum_self.
  by destruct (finite_vector x).
Qed.

Lemma eucl_dist_diag x : finite_vector x = true -> eucl_dist P x x = Ok 0.
Proof. intros Hx. by rewrite eucl_dist_self, Hx. Qed.

End distance.

(** ** Matrices as lists of rows *)

Lemma square_lookup n D i row : square n D -> D !! i = Some row -> length row = n.
Proof.
  intros [_ HD] Hi. rewrite Forall_forall in HD.
  eapply HD, list_elem_of_lookup_2, Hi.
Qed.

Lemma square_row n D i : square n D -> i < n -> exists row, D !! i = Some row /\ length row = n.
Proof.
  intros HD Hi. destruct (lookup_lt_is_Some_2 D i) as [row Hrow].
  { destruct HD as [-> _]. done. }
  exists row. split; [done|]. eapply square_lookup; eauto.
Qed.

Lemma cell_Some D i j row : D !! i = Some row -> cell D i j = row !! j.
Proof. intros H. unfold cell. rewrite H. reflexivity. Qed.

Lemma cell_None D i j : D !! i = None -> cell D i j = None.
Proof. intros H. unfold cell. rewrite H. reflexivity. Qed.

(** Two square matrices with the same cells are the same matrix. *)
Lemma square_ext n D1 D2 :
  square n D1 -> square n D2 ->
  (forall i j, i < n -> j < n -> cell D1 i j = cell D2 i j) ->
  D1 = D2.
Proof.
  intros H1 H2 Hc. apply list_eq. intros i.
  destruct (decide (i < n)) as [Hi|Hi].
  - destruct (square_row n D1 i H1 Hi) as (r1 & Hr1 & Hl1).
    destruct (square_row n D2 i H2 Hi) as (r2 & Hr2 & Hl2).
    rewrite Hr1, Hr2. f_equal. apply list_eq. intros j.
    destruct (decide (j < n)) as [Hj|Hj].
    + specialize (Hc i j Hi Hj).
      by rewrite (cell_Some _ _ _ _ Hr1), (cell_Some _ _ _ _ Hr2) in Hc.
    + rewrite !lookup_ge_None_2; [done | lia | lia].
  - destruct H1 as [H1 _], H2 as [H2 _].
    rewrite !lookup_ge_None_2; [done | lia | lia].
Qed.

Lemma foldl_append_replicate {A B} (v : A) (l : list B) (acc : list A) :
  foldl (fun row _ => row ++ [v]) acc l = acc ++ replicate (length l) v.
Proof.
  revert acc. induction l as [|b l IH]; intros acc; simpl.
  - by rewrite app_nil_r.
  - rewrite IH, <- app_assoc. reflexivity.
Qed.

(** The two loops of [empty_square_matrix] build [n] rows of [n] zeros. *)
Lemma empty_square_matrix_replicate n :
  empty_square_matrix n = replicate n (replicate n 0%float).
Proof.
  unfold empty_square_matrix, range.
  rewrite (foldl_append_replicate
             (foldl (fun row _ => row ++ [0%float]) [] (seq 0 n)) (seq 0 n) []).
  rewrite foldl_append_replicate. simpl. by rewrite length_seq.
Qed.

Lemma square_replicate n (v : float) : square n (replicate n (replicate n v)).
Proof.
  split; [apply length_replicate|].
  apply Forall_replicate, length_replicate.
Qed.

Lemma square_empty_square_matrix n : square n (empty_square_matrix n).
Proof. rewrite empty_square_matrix_replicate. apply square_replicate. Qed.

Lemma square_dist_matrix P X : square (length X) (dist_matrix P X).
Proof.
  unfold dist_matrix. split; [apply length_map|].
  apply Forall_forall. intros row Hrow. apply list_elem_of_fmap in Hrow.
  destruct Hrow as (xi & -> & _). apply length_map.
Qed.

Lemma dist_matrix_lookup P (X : dataset) i xi :
  X !! i = Some xi ->
  dist_matrix P X !! i = Some (map (fun xj => dist_value P xi xj) X).
Proof.
  intros Hi. unfold dist_matrix.
  change (map ?f X) with (f <$> X) at 1. by rewrite list_lookup_fmap, Hi.
Qed.

Lemma cell_dist_matrix P (X : dataset) i j xi xj :
  X !! i = Some xi -> X !! j = Some xj ->
  cell (dist_matrix P X) i j = Some (dist_value P xi xj).
Proof.
  intros Hi Hj. rewrite (cell_Some _ _ _ _ (dist_matrix_lookup P X i xi Hi)).
  change (map ?f X) with (f <$> X). by rewrite list_lookup_fmap, Hj.
Qed.

(** ** One assignment [D[i][j] = eucl_dist(X[i], X[j])] *)

Lemma getitem_Some {A} (l : list A) i a : l !! i = Some a -> getitem l i = Ok a.
Proof. intros H. unfold getitem. by rewrite H. Qed.

Lemma setitem_lt {A} (l : list A) i v :
  i < length l -> setitem l i v = Ok (<[i := v]> l).
Proof. intros H. unfold setitem. by rewrite decide_True. Qed.

Lemma setitem2_spec n D i j v :
  square n D -> i < n -> j < n ->
  exists D', setitem2 D i j v = Ok D' /\ square n D' /\
    forall i' j', cell D' i' j' =
      if decide ((i', j') = (i, j)) then Some v else cell D i' j'.
Proof.
  intros HD Hi Hj.
  destruct (square_row n D i HD Hi) as (row & Hrow & Hlen).
  exists (<[i := <[j := v]> row]> D). split; [|split].
  - unfold setitem2. rewrite (getitem_Some _ _ _ Hrow). simpl.
    rewrite setitem_lt by lia. reflexivity.
  - destruct HD as [HDl HDr]. split; [by rewrite length_insert|].
    apply Forall_insert; [done|]. by rewrite length_insert.
  - intros i' j'. destruct (decide (i' = i)) as [->|Hne].
    + rewrite (cell_Some _ i j' (<[j := v]> row)).
      2:{ apply list_lookup_insert_eq. destruct HD as [-> _]. done. }
      rewrite (cell_Some _ _ _ _ Hrow).
      destruct (decide (j' = j)) as [->|Hnej].
      * rewrite decide_True by done. apply list_lookup_insert_eq. lia.
      * rewrite decide_False by congruence. by apply list_lookup_insert_ne.
    + rewrite decide_False by congruence.
      unfold cell. by rewrite list_lookup_insert_ne.
Qed.


(** The assignment raises [OverflowError] with [eucl_dist], and otherwise
    writes the distance into its cell. *)
Lemma raises_at_lookup P (X : dataset) i j xi xj :
  X !! i = Some xi -> X !! j = Some xj ->
  raises_at P X (i, j) = raises P xi xj.
Proof. intros Hi Hj. unfold raises_at. simpl. by rewrite Hi, Hj. Qed.

Lemma task_Raise P (X : dataset) D i j :
  i < length X -> j < length X ->
  raises_at P X (i, j) = true ->
  task P D X i j = Raise OverflowError.
Proof.
  intros Hi Hj.
  destruct (lookup_lt_is_Some_2 X i Hi) as [xi Hxi].
  destruct (lookup_lt_is_Some_2 X j Hj) as [xj Hxj].
  rewrite (raises_at_lookup P X i j xi xj Hxi Hxj). intros Hraise.
  unfold task. rewrite (getitem_Some _ _ _ Hxi), (getitem_Some _ _ _ Hxj).
  rewrite !bind_Ok.
  by destruct (eucl_dist_cases P xi xj) as [[_ Hr]|[-> _]]; [congruence|].
Qed.

Lemma task_Ok P (X : dataset) D i j :
  square (length X) D -> i < length X -> j < length X ->
  raises_at P X (i, j) = false ->
  exists D', task P D X i j = Ok D' /\ square (length X) D' /\
    forall i' j', cell D' i' j' =
      if decide ((i', j') = (i, j)) then cell (dist_matrix P X) i j
      else cell D i' j'.
Proof.
  intros HD Hi Hj.
  destruct (lookup_lt_is_Some_2 X i Hi) as [xi Hxi].
  destruct (lookup_lt_is_Some_2 X j Hj) as [xj Hxj].
  rewrite (raises_at_lookup P X i j xi xj Hxi Hxj). intros Hraise.
  destruct (setitem2_spec _ D i j (dist_value P xi xj) HD Hi Hj)
    as (D' & HD' & Hsq & Hc).
  exists D'. split; [|split; [done|]].
  - unfold task. rewrite (getitem_Some _ _ _ Hxi), (getitem_Some _ _ _ Hxj).
    rewrite !bind_Ok.
    destruct (eucl_dist_cases P xi xj) as [[-> _]|[_ Hr]]; [|congruence].
    by rewrite bind_Ok.
  - intros i' j'. rewrite Hc, (cell_dist_matrix P X i j xi xj Hxi Hxj). done.
Qed.

(** Any sequence of assignments at pairs in range.  If the distance of no
    pair raises, the result holds the distance at each pair visited and the
    old value elsewhere. *)
Lemma fill_cells P (X : dataset) ps D :
  square (length X) D ->
  Forall (fun p => p.1 < length X /\ p.2 < length X) ps ->
  existsb (raises_at P X) ps = false ->
  exists D', for_ ps (fun p D => task P D X p.1 p.2) D = Ok D' /\
    square (length X) D' /\
    forall i j, cell D' i j =
      if decide ((i, j) ∈ ps) then cell (dist_matrix P X) i j else cell D i j.
Proof.
  intros HD Hps. revert D HD.
  induction Hps as [|[i j] ps [Hi Hj] _ IH]; intros D HD Hok.
  - exists D. split; [done|]. split; [done|]. intros i j.
    rewrite decide_False; [done | apply not_elem_of_nil].
  - simpl in Hi, Hj, Hok. apply orb_false_iff in Hok as [Hij Hok].
    destruct (task_Ok P X D i j HD Hi Hj Hij) as (D1 & HD1 & Hsq1 & Hc1).
    destruct (IH D1 Hsq1 Hok) as (D' & HD' & Hsq' & Hc').
    exists D'. split; [|split; [done|]].
    + simpl. rewrite HD1. exact HD'.
    + intros i' j'. rewrite Hc', Hc1.
      destruct (decide ((i', j') ∈ ps)) as [Hin|Hin].
      * rewrite decide_True; [done | apply elem_of_cons; by right].
      * destruct (decide ((i', j') = (i, j))) as [Heq|Hne].
        -- rewrite decide_True; [by inversion Heq | apply elem_of_cons; by left].
        -- rewrite decide_False; [done|].
           rewrite elem_of_cons. intros [?|?]; done.
Qed.

(** If the distance of some pair raises, so does the loop, wherever in the
    sequence that pair stands. *)
Lemma fill_Raise P (X : dataset) ps D :
  square (length X) D ->
  Forall (fun p => p.1 < length X /\ p.2 < length X) ps ->
  existsb (raises_at P X) ps = true ->
  for_ ps (fun p D => task P D X p.1 p.2) D = Raise OverflowError.
Proof.
  intros HD Hps. revert D HD.
  induction Hps as [|[i j] ps [Hi Hj] _ IH]; intros D HD Hbad; [done|].
  simpl in Hi, Hj, Hbad. cbn [for_ fst snd].
  destruct (raises_at P X (i, j)) eqn:Hij.
  - by rewrite (task_Raise P X D i j Hi Hj Hij).
  - destruct (task_Ok P X D i j HD Hi Hj Hij) as (D1 & -> & Hsq1 & _).
    rewrite bind_Ok. by apply IH.
Qed.

Lemma existsb_same_elements {A} (f : A -> bool) (l1 l2 : list A) :
  (forall a, a ∈ l1 <-> a ∈ l2) -> existsb f l1 = existsb f l2.
Proof.
  intros Hsame. apply eq_true_iff_eq. rewrite !existsb_exists.
  split; intros (a & Ha & Hf); exists a; split; try done;
    apply list_elem_of_In; apply list_elem_of_In in Ha; by apply Hsame.
Qed.

Lemma elem_of_all_pairs n (p : nat * nat) :
  p ∈ (range n ≫= fun i => pair i <$> range n) <-> p.1 < n /\ p.2 < n.
Proof.
  destruct p as [i j]. unfold range. rewrite list_elem_of_bind. split.
  - intros (i' & Hp & Hi'). apply list_elem_of_fmap in Hp as (j' & [= -> ->] & Hj').
    apply elem_of_seq in Hi', Hj'. simpl. lia.
  - simpl. intros [Hi Hj]. exists i. split; [|apply elem_of_seq; lia].
    apply list_elem_of_fmap. exists j. split; [done | apply elem_of_seq; lia].
Qed.

(** When every pair is visited, in whatever order and however often, the
    loop raises [OverflowError] if the distance of some pair of rows does,
    and otherwise builds the matrix of pairwise distances. *)
Lemma fill_all P (X : dataset) ps :
  (forall p, p ∈ ps <-> p.1 < length X /\ p.2 < length X) ->
  for_ ps (fun p D => task P D X p.1 p.2) (empty_square_matrix (length X))
  = if overflowing P X then Raise OverflowError else Ok (dist_matrix P X).
Proof.
  intros Hps.
  assert (Forall (fun p => p.1 < length X /\ p.2 < length X) ps) as Hrange.
  { apply Forall_forall. intros p Hp. by apply Hps. }
  assert (existsb (raises_at P X) ps = overflowing P X) as Hsame.
  { apply existsb_same_elements. intros p.
    by rewrite Hps, elem_of_all_pairs. }
  pose proof (square_empty_square_matrix (length X)) as Hsq0.
  destruct (overflowing P X) eqn:Hov.
  - by apply fill_Raise.
  - destruct (fill_cells P X ps _ Hsq0 Hrange Hsame) as (D' & -> & Hsq & Hc).
    f_equal. apply (square_ext (length X)); [done | apply square_dist_matrix |].
    intros i j Hi Hj. rewrite Hc, decide_True; [done | by apply Hps].
Qed.

(** Row by row, each row's columns in an order of its own. *)
Lemma nested_fill {B} P (X : dataset) (row_of : B -> nat)
    (cols : B -> list nat) (blocks : list B) :
  (forall b, b ∈ blocks -> row_of b < length X) ->
  (forall b j, b ∈ blocks -> j ∈ cols b <-> j < length X) ->
  (forall i, i < length X -> exists b, b ∈ blocks /\ row_of b = i) ->
  for_ blocks
       (fun b D => for_ (cols b) (fun j D => task P D X (row_of b) j) D)
       (empty_square_matrix (length X))
  = if overflowing P X then Raise OverflowError else Ok (dist_matrix P X).
Proof.
  intros Hrow Hcols Hcover.
  etrans; [exact (for_nested row_of cols (fun p D => task P D X p.1 p.2) blocks _)|].
  apply fill_all. intros [i j]. rewrite list_elem_of_bind. simpl. split.
  - intros (b & Hp & Hb).
    apply list_elem_of_fmap in Hp as (j' & [= -> ->] & Hj').
    split; [by apply Hrow | by apply (Hcols b)].
  - intros [Hi Hj]. destruct (Hcover i Hi) as (b & Hb & <-).
    exists b. split; [|done].
    apply list_elem_of_fmap. exists j. split; [done|]. by apply Hcols.
Qed.

(** The sequential builder raises [OverflowError] if the distance of some
    pair of rows does, and otherwise returns the pairwise distances. *)
Lemma eucl_dist_matrix_outcome P (X : dataset) :
  eucl_dist_matrix P X
  = if overflowing P X then Raise OverflowError else Ok (dist_matrix P X).
Proof.
  unfold eucl_dist_matrix, range.
  apply (nested_fill P X (fun i => i) (fun _ => seq 0 (length X))).
  - intros i Hi. apply elem_of_seq in Hi. lia.
  - intros _ j _. rewrite elem_of_seq. lia.
  - intros i Hi. exists i. split; [|done]. apply elem_of_seq. lia.
Qed.

Lemma eucl_dist_matrix_shuffled_outcome P sample (X : dataset) :
  (forall c l, sample c l ≡ₚ l) ->
  eucl_dist_matrix_shuffled P sample X
  = if overflowing P X then Raise OverflowError else Ok (dist_matrix P X).
Proof.
  intros Hperm. unfold eucl_dist_matrix_shuffled, range.
  apply (nested_fill P X snd (fun ki => sample (S ki.1) (seq 0 (length X)))).
  - intros [k i] Hb. apply elem_of_lookup_imap in Hb as (k' & i' & [= -> ->] & Hl).
    apply list_elem_of_lookup_2 in Hl. rewrite Hperm in Hl.
    apply elem_of_seq in Hl. simpl. lia.
  - intros b j _. rewrite Hperm, elem_of_seq. lia.
  - intros i Hi.
    assert (i ∈ sample 0 (seq 0 (length X))) as Hin.
    { rewrite Hperm. apply elem_of_seq. lia. }
    apply list_elem_of_lookup in Hin as [k Hk].
    exists (k, i). split; [|done].
    apply elem_of_lookup_imap. by exists k, i.
Qed.

(** What a returned matrix tells: no pair raised, and the matrix is the
    matrix of the distances. *)
Lemma eucl_dist_matrix_Ok_inv P (X : dataset) D :
  eucl_dist_matrix P X = Ok D ->
  overflowing P X = false /\ D = dist_matrix P X.
Proof.
  rewrite eucl_dist_matrix_outcome.
  destruct (overflowing P X); [done|]. by intros [= <-].
Qed.

Lemma overflowing_false P (X : dataset) i j xi xj :
  overflowing P X = false ->
  X !! i = Some xi -> X !! j = Some xj ->
  eucl_dist P xi xj = Ok (dist_value P xi xj).
Proof.
  intros Hov Hi Hj.
  destruct (eucl_dist_cases P xi xj) as [[H _]|[_ Hr]]; [done|].
  exfalso. apply not_true_iff_false in Hov. apply Hov.
  unfold overflowing. apply existsb_exists. exists (i, j). split.
  - apply list_elem_of_In, elem_of_all_pairs. simpl.
    split; by eapply lookup_lt_Some.
  - by rewrite (raises_at_lookup P X i j xi xj).
Qed.

Lemma overflowing_false_at P (X : dataset) i j :
  overflowing P X = false -> raises_at P X (i, j) = false.
Proof.
  intros Hov. unfold raises_at. simpl.
  destruct (X !! i) as [xi|] eqn:Hi; [|done].
  destruct (X !! j) as [xj|] eqn:Hj; [|done].
  pose proof (overflowing_false P X i j xi xj Hov Hi Hj) as H.
  unfold raises. by rewrite H.
Qed.

(** ** Chunks of rows *)

Lemma length_cdist P (XA XB : dataset) : length (cdist P XA XB) = length XA.
Proof. unfold cdist. apply length_map. Qed.

Section chunks.
Context (P : platform).


Lemma floordiv_pos n d :
  (1 <= d <= Z.of_nat n)%Z ->
  exists c, floordiv n d = Ok (Z.of_nat c) /\ 0 < c.
Proof.
  intros Hd. exists (Z.to_nat (Z.of_nat n / d)).
  assert (0 < Z.of_nat n / d)%Z by (apply Z.div_str_pos; lia).
  unfold floordiv. rewrite decide_False by lia.
  rewrite Z2Nat.id by lia. split; [done | lia].
Qed.

(** A positive step: the starts are below [stop], and every index below
    [stop] lies in the chunk of one of them. *)
Lemma range_step_pos stop c :
  0 < c ->
  exists starts, range_step stop (Z.of_nat c) = Ok starts /\
    (forall i, i ∈ starts -> i < stop) /\
    (forall r, r < stop -> exists i, i ∈ starts /\ i <= r < i + c).
Proof.
  intros Hc. unfold range_step.
  rewrite decide_False by lia. rewrite decide_False by lia.
  rewrite Nat2Z.id. eexists. split; [reflexivity|]. split.
  - intros i Hi. apply list_elem_of_fmap in Hi as (q & -> & Hq).
    apply elem_of_seq in Hq. destruct Hq as [_ Hq]. simpl in Hq.
    destruct (decide (q * c < stop)) as [|Hge]; [done|]. exfalso.
    assert ((stop + c - 1) / c <= q); [|lia].
    replace q with ((q * c + (c - 1)) / c).
    { apply Nat.Div0.div_le_mono. lia. }
    rewrite Nat.div_add_l by lia. rewrite Nat.div_small by lia. lia.
  - intros r Hr. exists (r / c * c). split.
    + apply list_elem_of_fmap. exists (r / c). split; [done|].
      apply elem_of_seq. split; [lia|]. simpl.
      apply Nat.Div0.div_lt_upper_bound.
      pose proof (Nat.div_mod_eq (stop + c - 1) c) as Hdm.
      pose proof (Nat.mod_upper_bound (stop + c - 1) c). lia.
    + pose proof (Nat.div_mod_eq r c) as Hdm.
      pose proof (Nat.mod_upper_bound r c). lia.
Qed.

Lemma cdist_slice (X : dataset) i c :
  cdist P (slice X i (i + c)) X = take c (drop i (cdist P X X)).
Proof.
  unfold cdist, slice. replace (i + c - i) with c by lia.
  change (map ?f ?l) with (f <$> l). by rewrite fmap_take, fmap_drop.
Qed.

(** The slice assignment of [task_4] replaces the rows of its chunk by the
    rows of [cdist(X, X)] and leaves the other rows alone. *)
Lemma task_4_spec (X : dataset) (D : matrix) i c :
  length D = length X -> i <= length X ->
  exists D', task_4 P D X i c = Ok D' /\ length D' = length X /\
    forall r, D' !! r =
      if decide (i <= r < i + c) then cdist P X X !! r else D !! r.
Proof.
  intros HD Hi. unfold task_4, set_slice. rewrite cdist_slice.
  pose proof (length_cdist P X X) as HT.
  set (T := cdist P X X) in *.
  assert (length (take c (drop i T)) = min c (length X - i)) as Hm.
  { by rewrite length_take, length_drop, HT. }
  assert (length (slice D i (i + c)) = min c (length X - i)) as Hk.
  { unfold slice. replace (i + c - i) with c by lia.
    by rewrite length_take, length_drop, HD. }
  cbv zeta. rewrite Hk, decide_True by done.
  eexists. split; [reflexivity|]. split.
  - rewrite !length_app, length_take, !length_drop, Hm, HD. lia.
  - intros r. destruct (decide (r < i)) as [Hlt|Hge].
    + rewrite decide_False by lia.
      rewrite lookup_app_l by (rewrite length_take; lia).
      by apply lookup_take_lt.
    + rewrite lookup_app_r by (rewrite length_take; lia).
      rewrite length_take, HD. replace (i `min` length X) with i by lia.
      destruct (decide (r < i + min c (length X - i))) as [Hin|Hout].
      * rewrite decide_True by lia.
        rewrite lookup_app_l by (rewrite Hm; lia).
        rewrite lookup_take_lt by lia. rewrite lookup_drop. f_equal. lia.
      * rewrite lookup_app_r by (rewrite Hm; lia).
        rewrite Hm, lookup_drop.
        replace (i + min c (length X - i) + (r - i - min c (length X - i)))
          with r by lia.
        destruct (decide (i <= r < i + c)); [|done].
        rewrite !lookup_ge_None_2; [done | lia | lia].
Qed.

(** Started in any order, the threads leave a row of [cdist(X, X)] in
    every row that was one already or that belongs to a chunk. *)
Lemma threads_rows (X : dataset) c (l : list nat) (D : matrix) :
  length D = length X ->
  (forall i, i ∈ l -> i <= length X) ->
  let D' := foldl (fun D i => run_thread (fun D => task_4 P D X i c) D) D l in
  length D' = length X /\
  forall r, (D !! r = cdist P X X !! r \/ exists i, i ∈ l /\ i <= r < i + c) ->
            D' !! r = cdist P X X !! r.
Proof.
  revert D. induction l as [|i l IH]; intros D HD Hl D'; subst D'; cbn [foldl].
  - split; [done|]. intros r [Hr|(i & Hi & _)]; [done|].
    by apply not_elem_of_nil in Hi.
  - destruct (task_4_spec X D i c HD) as (D1 & HD1 & Hlen1 & Hrows1).
    { apply Hl. left. }
    assert (run_thread (fun D => task_4 P D X i c) D = D1) as ->.
    { unfold run_thread. by rewrite HD1. }
    destruct (IH D1 Hlen1) as [Hlen' Hrows'].
    { intros i' Hi'. apply Hl. by right. }
    split; [done|]. intros r Hr. apply Hrows'. rewrite Hrows1.
    destruct (decide (i <= r < i + c)) as [|Hout]; [by left|].
    destruct Hr as [Hr|(i' & Hi' & Hcov)]; [by left|].
    apply elem_of_cons in Hi' as [->|Hi']; [lia|]. right. eauto.
Qed.

Lemma np_array_Ok (X : dataset) : equal_length X -> np_array X = Ok X.
Proof. intros H. unfold np_array. by rewrite decide_True. Qed.

Lemma length_np_zeros n m : length (np_zeros n m) = n.
Proof. apply length_replicate. Qed.

(** Threads whose chunks cover all rows leave [cdist(X, X)]. *)
Lemma threads_cover (X : dataset) c (l : list nat) :
  (forall i, i ∈ l -> i < length X) ->
  (forall r, r < length X -> exists i, i ∈ l /\ i <= r < i + c) ->
  foldl (fun D i => run_thread (fun D => task_4 P D X i c) D)
        (np_zeros (length X) (length X)) l
  = cdist P X X.
Proof.
  intros Hlt Hcov.
  destruct (threads_rows X c l (np_zeros (length X) (length X)))
    as [Hlen Hrows].
  { apply length_np_zeros. }
  { intros i Hi. apply Hlt in Hi. lia. }
  apply list_eq. intros r. destruct (decide (r < length X)) as [Hr|Hr].
  - apply Hrows. right. by apply Hcov.
  - pose proof (length_cdist P X X) as HT.
    rewrite !lookup_ge_None_2; [done | lia | lia].
Qed.

(** With at least one job and at most one job per row, the threaded builder
    returns [cdist(X, X)], whatever the order of the threads. *)
Lemma eucl_dist_matrix_thr_4_Ok sched (X : dataset) (n_jobs : Z) :
  (forall l, sched l ≡ₚ l) ->
  equal_length X ->
  (1 <= n_jobs <= Z.of_nat (length X))%Z ->
  eucl_dist_matrix_thr_4 P sched X n_jobs = Ok (cdist P X X).
Proof.
  intros Hperm HX Hjobs. unfold eucl_dist_matrix_thr_4.
  rewrite (np_array_Ok X HX), bind_Ok.
  destruct (floordiv_pos (length X) n_jobs Hjobs) as (c & -> & Hc).
  rewrite bind_Ok.
  destruct (range_step_pos (length X) c Hc) as (starts & -> & Hlt & Hcov).
  rewrite bind_Ok, Nat2Z.id. f_equal. apply threads_cover.
  - intros i Hi. apply Hlt. by rewrite <- (Hperm starts).
  - intros r Hr. destruct (Hcov r Hr) as (i & Hi & Hin).
    exists i. split; [by rewrite (Hperm starts) | done].
Qed.

(** The same chunks without threads. *)
Lemma eucl_dist_matrix_4_Ok (X : dataset) (n_jobs : Z) :
  equal_length X ->
  (1 <= n_jobs <= Z.of_nat (length X))%Z ->
  eucl_dist_matrix_4 P X n_jobs = Ok (cdist P X X).
Proof.
  intros HX Hjobs. unfold eucl_dist_matrix_4.
  rewrite (np_array_Ok X HX), bind_Ok.
  destruct (floordiv_pos (length X) n_jobs Hjobs) as (c & -> & Hc).
  rewrite bind_Ok.
  destruct (range_step_pos (length X) c Hc) as (starts & -> & Hlt & Hcov).
  rewrite bind_Ok, Nat2Z.id.
  destruct (for_pure starts (fun i D => task_4 P D X i c)
              (fun D i => run_thread (fun D => task_4 P D X i c) D)
              (fun D => length D = length X)
              (np_zeros (length X) (length X))) as [-> _].
  - intros i D Hi HD.
    destruct (task_4_spec X D i c HD) as (D' & HD' & Hlen' & _).
    { apply Hlt in Hi. lia. }
    unfold run_thread. by rewrite HD'.
  - apply length_np_zeros.
  - f_equal. by apply threads_cover.
Qed.

(** More jobs than rows: the chunk size is 0 and [range] refuses the step. *)
Lemma eucl_dist_matrix_thr_4_too_many_jobs sched (X : dataset) (n_jobs : Z) :
  equal_length X ->
  (Z.of_nat (length X) < n_jobs)%Z ->
  eucl_dist_matrix_thr_4 P sched X n_jobs = Raise ValueError.
Proof.
  intros HX Hjobs. unfold eucl_dist_matrix_thr_4.
  rewrite (np_array_Ok X HX), bind_Ok.
  unfold floordiv. rewrite decide_False by lia.
  rewrite bind_Ok, Z.div_small by lia. reflexivity.
Qed.

(** The builder with processes: under 8 rows the chunk size is 0 and [range]
    refuses the step; from 8 rows on, the children's work is lost and the
    parent returns its matrix of zeros. *)
Lemma eucl_dist_matrix_p_small (X : dataset) :
  length X < 8 -> eucl_dist_matrix_p P X = Raise ValueError.
Proof.
  intros Hn. unfold eucl_dist_matrix_p, floordiv.
  rewrite decide_False by lia.
  rewrite bind_Ok, Z.div_small by lia. reflexivity.
Qed.

Lemma foldl_run_process {I} (target : I -> matrix -> result matrix)
    (l : list I) (D : matrix) :
  foldl (fun D i => run_process (target i) D) D l = D.
Proof. induction l as [|i l IH]; simpl; [done | apply IH]. Qed.

Lemma eucl_dist_matrix_p_large (X : dataset) :
  8 <= length X ->
  eucl_dist_matrix_p P X = Ok (empty_square_matrix (length X)).
Proof.
  intros Hn. unfold eucl_dist_matrix_p.
  destruct (floordiv_pos (length X) 8) as (c & -> & Hc); [lia|].
  rewrite bind_Ok.
  destruct (range_step_pos (length X) c Hc) as (starts & -> & _).
  rewrite bind_Ok.
  by rewrite (foldl_run_process (fun i D => task_p P D X i (Z.to_nat (Z.of_nat c)))).
Qed.

End chunks.

(** ** Threads that interleave cell by cell *)

Section interleaving.
Context (P : platform) (X : dataset).

Lemma elem_of_to_write (ths : list thread) (i j : nat) :
  (i, j) ∈ to_write P X ths <->
  exists js, (i, js) ∈ ths /\ j ∈ ok_prefix P X i js.
Proof.
  unfold to_write. rewrite list_elem_of_bind. split.
  - intros ([i' js] & Hin & Hth).
    apply list_elem_of_fmap in Hin as (j' & [= -> ->] & Hj'). eauto.
  - intros (js & Hth & Hj). exists (i, js). split; [|done].
    apply list_elem_of_fmap. eauto.
Qed.

Lemma ok_prefix_sub (i : nat) (js : list nat) (j : nat) :
  j ∈ ok_prefix P X i js -> j ∈ js.
Proof.
  induction js as [|j' js IH]; simpl; [done|].
  destruct (raises_at P X (i, j')); [by intros ?%not_elem_of_nil|].
  intros [->|Hj]%elem_of_cons; [left | right; by apply IH].
Qed.

(** One statement of one thread keeps the invariant, whether it writes its
    cell or raises and ends the thread. *)
Lemma thread_step_inv W D0 (st : list thread * matrix) (t : nat) :
  threads_inv P X W D0 st -> threads_inv P X W D0 (thread_step P X st t).
Proof.
  destruct st as [ths D]. intros (Hsq & Hrange & Hsub & Hcells).
  unfold thread_step. cbn [fst snd] in *.
  destruct (ths !! t) as [[i [|j js]]|] eqn:Ht; try done.
  destruct (Hrange i (j :: js)) as [Hi Hjs].
  { by eapply list_elem_of_lookup_2. }
  assert (j < length X) as Hj by (apply Hjs; left).
  assert (forall i' js', (i', js') ∈ <[t := (i, js)]> ths ->
            (i', js') = (i, js) \/ (i', js') ∈ ths) as Hins.
  { intros i' js' Hin. apply list_elem_of_lookup in Hin as [k Hk].
    apply list_lookup_insert_Some in Hk as [(_ & <- & _)|[_ Hk]]; [by left|].
    right. by eapply list_elem_of_lookup_2. }
  assert (forall i' js', (i', js') ∈ <[t := (i, [])]> ths ->
            (i', js') = (i, []) \/ (i', js') ∈ ths) as Hins0.
  { intros i' js' Hin. apply list_elem_of_lookup in Hin as [k Hk].
    apply list_lookup_insert_Some in Hk as [(_ & <- & _)|[_ Hk]]; [by left|].
    right. by eapply list_elem_of_lookup_2. }
  assert (forall i' js' (ths' : list thread) th, (i', js') ∈ ths ->
            (i', js') <> (i, j :: js) ->
            (i', js') ∈ <[t := th]> ths) as Hkeep.
  { intros i' js' ths' th Hin Hne.
    apply list_elem_of_lookup in Hin as [k Hk].
    apply (list_elem_of_lookup_2 _ k). rewrite list_lookup_insert_ne; [done|].
    intros <-. rewrite Ht in Hk. by injection Hk as <- <-. }
  assert (t < length ths) as Htlen by (by eapply lookup_lt_Some).
  destruct (raises_at P X (i, j)) eqn:Hraise.
  - (* the thread raises and ends *)
    rewrite (task_Raise P X D i j Hi Hj Hraise).
    split; [done|]. cbn [fst snd].
    assert (forall c, c ∈ to_write P X (<[t := (i, [])]> ths) <->
                      c ∈ to_write P X ths) as Hsame.
    { intros [i' j']. rewrite !elem_of_to_write. split.
      - intros (js' & Hin & Hj').
        destruct (Hins0 _ _ Hin) as [[= -> ->]|Hin'].
        + by apply not_elem_of_nil in Hj'.
        + eauto.
      - intros (js' & Hin & Hj'). exists js'. split; [|done].
        apply (Hkeep _ _ ths); [done|]. intros [= -> ->].
        simpl in Hj'. rewrite Hraise in Hj'. by apply not_elem_of_nil in Hj'. }
    split; [|split].
    + intros i' js' Hin. destruct (Hins0 _ _ Hin) as [[= -> ->]|Hin'].
      * split; [done|]. by intros j' ?%not_elem_of_nil.
      * by apply Hrange.
    + intros c Hc. by apply Hsub, Hsame.
    + intros i' j' Hi' Hj'. specialize (Hcells i' j' Hi' Hj').
      destruct (decide ((i', j') ∈ W)); [|done].
      destruct Hcells as [|Hw]; [by left | right; by apply Hsame].
  - (* the thread writes its cell *)
    destruct (task_Ok P X D i j Hsq Hi Hj Hraise) as (D' & -> & Hsq' & Hc').
    split; [done|]. cbn [fst snd].
    assert ((i, j) ∈ W) as HijW.
    { apply Hsub, elem_of_to_write. exists (j :: js).
      split; [by eapply list_elem_of_lookup_2|].
      simpl. rewrite Hraise. left. }
    split; [|split].
    + intros i' js' Hin. destruct (Hins _ _ Hin) as [[= -> ->]|Hin'].
      * split; [done|]. intros j' Hj'. apply Hjs. by right.
      * by apply Hrange.
    + intros [i' j'] Hc. apply Hsub. revert Hc. rewrite !elem_of_to_write.
      intros (js' & Hin & Hj'). destruct (Hins _ _ Hin) as [[= -> ->]|Hin'].
      * exists (j :: js). split; [by eapply list_elem_of_lookup_2|].
        simpl. rewrite Hraise. by right.
      * eauto.
    + intros i' j' Hi' Hj'. specialize (Hcells i' j' Hi' Hj'). rewrite Hc'.
      destruct (decide ((i', j') = (i, j))) as [[= -> ->]|Hne].
      * rewrite decide_True by done. by left.
      * destruct (decide ((i', j') ∈ W)); [|done].
        destruct Hcells as [|Hw]; [by left|]. right.
        apply elem_of_to_write in Hw as (js' & Hin & Hj'in).
        apply elem_of_to_write.
        destruct (decide ((i', js') = (i, j :: js))) as [[= -> ->]|Hother].
        -- exists js. split.
           ++ apply (list_elem_of_lookup_2 _ t). by apply list_lookup_insert_eq.
           ++ simpl in Hj'in. rewrite Hraise in Hj'in.
              apply elem_of_cons in Hj'in as [->|]; [congruence | done].
        -- exists js'. split; [|done]. by apply (Hkeep _ _ ths).
Qed.

Lemma interleave_inv W D0 (sched : list nat) (st : list thread * matrix) :
  threads_inv P X W D0 st ->
  threads_inv P X W D0 (foldl (thread_step P X) st sched).
Proof.
  revert st. induction sched as [|t sched IH]; intros st Hst; [done|].
  simpl. by apply IH, thread_step_inv.
Qed.

(** A thread left alone writes the cells it has still to visit, up to the
    first that raises. *)
Lemma run_to_end_spec (i : nat) (js : list nat) (D : matrix) :
  square (length X) D -> i < length X ->
  (forall j, j ∈ js -> j < length X) ->
  square (length X) (run_to_end P X i js D) /\
  forall i' j', cell (run_to_end P X i js D) i' j' =
    if decide (i' = i /\ j' ∈ ok_prefix P X i js)
    then cell (dist_matrix P X) i' j'
    else cell D i' j'.
Proof.
  intros Hsq Hi. revert D Hsq.
  induction js as [|j js IH]; intros D Hsq Hjs; simpl.
  - split; [done|]. intros i' j'. rewrite decide_False; [done|].
    intros [_ H]. by apply not_elem_of_nil in H.
  - assert (j < length X) as Hj by (apply Hjs; left).
    destruct (raises_at P X (i, j)) eqn:Hraise.
    + rewrite (task_Raise P X D i j Hi Hj Hraise).
      split; [done|]. intros i' j'. rewrite decide_False; [done|].
      intros [_ H]. by apply not_elem_of_nil in H.
    + destruct (task_Ok P X D i j Hsq Hi Hj Hraise) as (D' & -> & Hsq' & Hc').
      destruct (IH D' Hsq') as [Hsq'' Hc''].
      { intros j' Hj'. apply Hjs. by right. }
      split; [done|]. intros i' j'. rewrite Hc'', Hc'.
      destruct (decide (i' = i /\ j' ∈ ok_prefix P X i js)) as [[-> Hin]|Hout].
      * rewrite decide_True; [done|]. split; [done | by right].
      * destruct (decide ((i', j') = (i, j))) as [[= -> ->]|Hne].
        -- rewrite decide_True; [done|]. split; [done | left].
        -- rewrite decide_False; [done|]. intros [-> Hin].
           apply elem_of_cons in Hin as [->|Hin]; [done|]. by apply Hout.
Qed.

(** The joins: once every thread has run to its end, every cell of [W]
    holds its distance and every other cell is as it was at the start. *)
Lemma join_spec W D0 (ths : list thread) (D : matrix) :
  threads_inv P X W D0 (ths, D) ->
  let D' := foldl (fun D th => run_to_end P X th.1 th.2 D) D ths in
  square (length X) D' /\
  forall i j, i < length X -> j < length X ->
    cell D' i j =
    if decide ((i, j) ∈ W) then cell (dist_matrix P X) i j else cell D0 i j.
Proof.
  revert D. induction ths as [|[i js] ths IH];
    intros D (Hsq & Hrange & Hsub & Hcells) D'; subst D'.
  - simpl in *. split; [done|]. intros i j Hi Hj.
    specialize (Hcells i j Hi Hj).
    destruct (decide ((i, j) ∈ W)); [|done].
    destruct Hcells as [|Hw]; [done|]. by apply not_elem_of_nil in Hw.
  - cbn [foldl fst snd] in *.
    destruct (Hrange i js) as [Hi Hjs]; [left|].
    destruct (run_to_end_spec i js D Hsq Hi Hjs) as [Hsq' Hc'].
    apply IH. split; [done|]. cbn [fst snd]. split; [|split].
    + intros i' js' Hin. apply Hrange. by right.
    + intros [i' j'] Hc. apply Hsub. revert Hc. rewrite !elem_of_to_write.
      intros (js' & Hin & Hj'). exists js'. split; [by right | done].
    + intros i' j' Hi' Hj'. specialize (Hcells i' j' Hi' Hj'). rewrite Hc'.
      destruct (decide (i' = i /\ j' ∈ ok_prefix P X i js)) as [[-> Hin]|Hout].
      * rewrite decide_True; [by left|].
        apply Hsub, elem_of_to_write. exists js. split; [left | done].
      * destruct (decide ((i', j') ∈ W)); [|done].
        destruct Hcells as [|Hw]; [by left|]. right.
        apply elem_of_to_write in Hw as (js' & Hin & Hj'in).
        apply elem_of_to_write. exists js'. split; [|done].
        apply elem_of_cons in Hin as [[= -> ->]|Hin]; [|done].
        exfalso. by apply Hout.
Qed.

(** Threads started on a square matrix [D], whatever the interleaving:
    every cell that some thread reaches before an exception ends it holds
    its distance, and every other cell is as it was. *)
Lemma run_threads_spec (sched : list nat) (threads : list thread)
    (D : matrix) :
  square (length X) D ->
  (forall i js, (i, js) ∈ threads ->
     i < length X /\ forall j, j ∈ js -> j < length X) ->
  square (length X) (run_threads P X sched threads D) /\
  forall i j, i < length X -> j < length X ->
    cell (run_threads P X sched threads D) i j =
    if decide ((i, j) ∈ to_write P X threads)
    then cell (dist_matrix P X) i j else cell D i j.
Proof.
  intros Hsq Hrange. unfold run_threads.
  assert (threads_inv P X (to_write P X threads) D (threads, D)) as Hinv.
  { split; [done|]. split; [done|]. split; [done|]. cbn [fst snd].
    intros i j _ _. destruct (decide _); [by right | done]. }
  pose proof (interleave_inv _ _ sched _ Hinv) as Hinv'.
  destruct (foldl (thread_step P X) (threads, D) sched) as [ths' D'].
  by apply join_spec.
Qed.

(** The threads of cell 21 are in range and reach the cells that do not
    raise; the threads of cell 25 reach, in each row, the cells before the
    first that raises. *)
Lemma threads_thr_range i js :
  (i, js) ∈ (range (length X) ≫= fun i =>
               (fun j => (i, [j])) <$> range (length X)) ->
  i < length X /\ forall j, j ∈ js -> j < length X.
Proof.
  unfold range. intros Hin. apply list_elem_of_bind in Hin as (i' & Hin & Hi').
  apply list_elem_of_fmap in Hin as (j & [= -> ->] & Hj).
  apply elem_of_seq in Hi', Hj. split; [lia|].
  intros j' Hj'. apply list_elem_of_singleton in Hj' as ->. lia.
Qed.

Lemma to_write_thr i j :
  (i, j) ∈ to_write P X (range (length X) ≫= fun i =>
                           (fun j => (i, [j])) <$> range (length X)) <->
  i < length X /\ j < length X /\ raises_at P X (i, j) = false.
Proof.
  rewrite elem_of_to_write. unfold range. split.
  - intros (js & Hin & Hj).
    apply list_elem_of_bind in Hin as (i' & Hin & Hi').
    apply list_elem_of_fmap in Hin as (j' & [= -> ->] & Hj').
    apply elem_of_seq in Hi', Hj'. simpl in Hj.
    destruct (raises_at P X (i', j')) eqn:Hr;
      [by apply not_elem_of_nil in Hj|].
    apply list_elem_of_singleton in Hj as ->.
    split; [lia|]. split; [lia | done].
  - intros (Hi & Hj & Hr). exists [j]. split.
    + apply list_elem_of_bind. exists i. split; [|apply elem_of_seq; lia].
      apply list_elem_of_fmap. exists j. split; [done | apply elem_of_seq; lia].
    + simpl. rewrite Hr. left.
Qed.

Lemma threads_thr_2_range i js :
  (i, js) ∈ ((fun i => (i, range (length X))) <$> range (length X)) ->
  i < length X /\ forall j, j ∈ js -> j < length X.
Proof.
  unfold range. intros Hin.
  apply list_elem_of_fmap in Hin as (i' & [= -> ->] & Hi').
  apply elem_of_seq in Hi'. split; [lia|].
  intros j Hj. apply elem_of_seq in Hj. lia.
Qed.

Lemma elem_of_ok_prefix_seq i a m j :
  j ∈ ok_prefix P X i (seq a m) <->
  a <= j < a + m /\ forall j', a <= j' <= j -> raises_at P X (i, j') = false.
Proof.
  revert a. induction m as [|m IH]; intros a; simpl.
  - split; [by intros ?%not_elem_of_nil | lia].
  - destruct (raises_at P X (i, a)) eqn:Hr.
    + split; [by intros ?%not_elem_of_nil|].
      intros [Hj Hall]. rewrite Hall in Hr by lia. done.
    + rewrite elem_of_cons, IH. split.
      * intros [->|[Hj Hall]].
        -- split; [lia|]. intros j' Hj'. by replace j' with a by lia.
        -- split; [lia|]. intros j' Hj'.
           destruct (decide (j' = a)) as [->|]; [done|]. apply Hall. lia.
      * intros [Hj Hall]. destruct (decide (j = a)) as [->|]; [by left|].
        right. split; [lia|]. intros j' Hj'. apply Hall. lia.
Qed.

Lemma to_write_thr_2 i j :
  (i, j) ∈ to_write P X ((fun i => (i, range (length X)))
                           <$> range (length X)) <->
  i < length X /\ j < length X /\
  forall j', j' <= j -> raises_at P X (i, j') = false.
Proof.
  rewrite elem_of_to_write. unfold range. split.
  - intros (js & Hin & Hj).
    apply list_elem_of_fmap in Hin as (i' & [= -> ->] & Hi').
    apply elem_of_seq in Hi'. apply elem_of_ok_prefix_seq in Hj as [Hj Hall].
    split; [lia|]. split; [lia|]. intros j' Hj'. apply Hall. lia.
  - intros (Hi & Hj & Hall). exists (seq 0 (length X)). split.
    + apply list_elem_of_fmap. exists i. split; [done | apply elem_of_seq; lia].
    + apply elem_of_ok_prefix_seq. split; [lia|].
      intros j' Hj'. apply Hall. lia.
Qed.

(** On a dataset no pair of which raises, both builders fill the matrix
    of the distances. *)
Lemma eucl_dist_matrix_thr_no_overflow (sched : list nat) :
  overflowing P X = false ->
  eucl_dist_matrix_thr P sched X = Ok (dist_matrix P X).
Proof.
  intros Hov. unfold eucl_dist_matrix_thr. cbv zeta. f_equal.
  destruct (run_threads_spec sched _ (empty_square_matrix (length X))
              (square_empty_square_matrix _) threads_thr_range) as [Hsq Hc].
  apply (square_ext (length X)); [done | apply square_dist_matrix |].
  intros i j Hi Hj. rewrite (Hc i j Hi Hj), decide_True; [done|].
  apply to_write_thr. by rewrite (overflowing_false_at P X i j Hov).
Qed.

Lemma eucl_dist_matrix_thr_2_no_overflow (sched : list nat) :
  overflowing P X = false ->
  eucl_dist_matrix_thr_2 P sched X = Ok (dist_matrix P X).
Proof.
  intros Hov. unfold eucl_dist_matrix_thr_2. cbv zeta. f_equal.
  destruct (run_threads_spec sched _ (empty_square_matrix (length X))
              (square_empty_square_matrix _) threads_thr_2_range) as [Hsq Hc].
  apply (square_ext (length X)); [done | apply square_dist_matrix |].
  intros i j Hi Hj. rewrite (Hc i j Hi Hj), decide_True; [done|].
  apply to_write_thr_2. split; [done|]. split; [done|].
  intros j' _. by apply overflowing_false_at.
Qed.

End interleaving.

(** ** Rows computed by numpy *)

Section numpy_rows.
Context (P : platform).

(** The row of [task_3] has one entry per row of [X]. *)
Lemma length_np_row (xi : vector) (X : dataset) :
  length (np_row P xi X) = length X.
Proof.
  unfold np_row, np_sqrt, np_sum_rows, np_square, np_sub_rows.
  by rewrite !length_map.
Qed.

Lemma np_row_lookup (xi xj : vector) (X : dataset) j :
  X !! j = Some xj ->
  np_row P xi X !! j
  = Some (sqrt (np_sum P (map (fun v => (v * v)%float) (zip_with sub xi xj)))).
Proof.
  intros Hj. unfold np_row, np_sqrt, np_sum_rows, np_square, np_sub_rows.
  rewrite !map_map. change (map ?f ?l) with (f <$> l) at 1.
  by rewrite list_lookup_fmap, Hj.
Qed.

Lemma task_3_spec (X : dataset) (D : matrix) (i : nat) :
  square (length X) D -> i < length X ->
  exists D', task_3 P D X i = Ok D' /\ square (length X) D' /\
    forall r, D' !! r =
      if decide (r = i) then (fun xi => np_row P xi X) <$> X !! r else D !! r.
Proof.
  intros Hsq Hi.
  destruct (lookup_lt_is_Some_2 X i Hi) as [xi Hxi].
  destruct (square_row _ D i Hsq Hi) as (row & Hrow & Hlen).
  exists (<[i := np_row P xi X]> D).
  split; [|split].
  - unfold task_3, set_row.
    rewrite (getitem_Some _ _ _ Hxi), bind_Ok.
    rewrite (getitem_Some _ _ _ Hrow), bind_Ok.
    fold (np_row P xi X).
    rewrite decide_True; [done|]. by rewrite length_np_row, Hlen.
  - destruct Hsq as [HDl HDr]. split; [by rewrite length_insert|].
    apply Forall_insert; [done | apply length_np_row].
  - intros r. destruct (decide (r = i)) as [->|Hne].
    + rewrite Hxi. simpl.
      apply list_lookup_insert_eq. destruct Hsq as [-> _]. done.
    + by apply list_lookup_insert_ne.
Qed.

Lemma threads_3_rows (X : dataset) (l : list nat) (D : matrix) :
  square (length X) D ->
  (forall i, i ∈ l -> i < length X) ->
  let D' := foldl (fun D i => run_thread (fun D => task_3 P D X i) D) D l in
  square (length X) D' /\
  forall r, (D !! r = (fun xi => np_row P xi X) <$> X !! r \/ r ∈ l) ->
            D' !! r = (fun xi => np_row P xi X) <$> X !! r.
Proof.
  revert D. induction l as [|i l IH]; intros D HD Hl D'; subst D'; cbn [foldl].
  - split; [done|]. intros r [Hr|Hr]; [done|].
    by apply not_elem_of_nil in Hr.
  - destruct (task_3_spec X D i HD) as (D1 & HD1 & Hsq1 & Hrows1).
    { apply Hl. left. }
    assert (run_thread (fun D => task_3 P D X i) D = D1) as ->.
    { unfold run_thread. by rewrite HD1. }
    destruct (IH D1 Hsq1) as [Hsq' Hrows'].
    { intros i' Hi'. apply Hl. by right. }
    split; [done|]. intros r Hr. apply Hrows'. rewrite Hrows1.
    destruct (decide (r = i)) as [|Hne]; [by left|].
    destruct Hr as [Hr|Hr]; [by left|].
    apply elem_of_cons in Hr as [->|Hr]; [done | by right].
Qed.

(** In whatever order the threads' assignments take effect, row [i] of the
    result is the row numpy computes for [X[i]]. *)
Lemma eucl_dist_matrix_thr_3_Ok sched (X : dataset) :
  (forall l, sched l ≡ₚ l) ->
  equal_length X ->
  eucl_dist_matrix_thr_3 P sched X = Ok (map (fun xi => np_row P xi X) X).
Proof.
  intros Hperm HX.
  unfold eucl_dist_matrix_thr_3, range.
  rewrite (np_array_Ok X HX), bind_Ok. f_equal.
  destruct (threads_3_rows X (sched (seq 0 (length X)))
              (np_zeros (length X) (length X))) as [Hsq Hrows].
  { apply square_replicate. }
  { intros i Hi. rewrite Hperm in Hi. apply elem_of_seq in Hi. lia. }
  apply list_eq. intros r.
  change (map ?f ?l) with (f <$> l). rewrite list_lookup_fmap.
  destruct (decide (r < length X)) as [Hr|Hr].
  - apply Hrows. right. rewrite Hperm. apply elem_of_seq. lia.
  - destruct Hsq as [HD _].
    rewrite !lookup_ge_None_2; [done | lia | lia].
Qed.

End numpy_rows.

(** ** The chunks as a list of blocks *)

Lemma floordiv_nat (n : nat) (d : Z) :
  (1 <= d)%Z -> floordiv n d = Ok (Z.of_nat (n / Z.to_nat d)).
Proof.
  intros Hd. unfold floordiv. rewrite decide_False by lia. f_equal.
  rewrite Nat2Z.inj_div, Z2Nat.id by lia. reflexivity.
Qed.

Lemma range_step_pos_eq (stop c : nat) :
  0 < c ->
  range_step stop (Z.of_nat c)
  = Ok (map (fun q => q * c) (seq 0 ((stop + c - 1) / c))).
Proof.
  intros Hc. unfold range_step.
  rewrite decide_False by lia. rewrite decide_False by lia.
  by rewrite Nat2Z.id.
Qed.

Lemma chunks_cover (stop c : nat) : 0 < c -> stop <= (stop + c - 1) / c * c.
Proof.
  intros Hc. pose proof (Nat.div_mod_eq (stop + c - 1) c) as Hdm.
  pose proof (Nat.mod_upper_bound (stop + c - 1) c). lia.
Qed.

(** Consecutive chunks of [c] rows, put end to end, are a prefix. *)
Lemma concat_chunks {A} (T : list A) (c m : nat) :
  concat (map (fun q => take c (drop (q * c) T)) (seq 0 m)) = take (m * c) T.
Proof.
  induction m as [|m IH]; [done|].
  rewrite seq_S, map_app, concat_app, IH. simpl. rewrite app_nil_r.
  rewrite take_take_drop. f_equal. lia.
Qed.

(** With [k] jobs for [n >= k] rows, the chunk size [n // k] gives at least
    [k] chunks and fewer than [2 * k]. *)
Lemma chunk_count (n k : nat) :
  1 <= k <= n ->
  k <= (n + n / k - 1) / (n / k) < 2 * k.
Proof.
  intros Hk.
  pose proof (Nat.div_mod_eq n k) as Hdm.
  pose proof (Nat.mod_upper_bound n k).
  assert (1 <= n / k) as Hc by (apply Nat.div_le_lower_bound; lia).
  split.
  - apply Nat.div_le_lower_bound; [lia|]. nia.
  - apply Nat.Div0.div_lt_upper_bound. nia.
Qed.


(** ** Cells out of range *)

Lemma cell_out_of_range n (D : matrix) i j :
  square n D -> n <= i \/ n <= j -> cell D i j = None.
Proof.
  intros HD Hij. destruct (D !! i) as [row|] eqn:Hrow.
  - rewrite (cell_Some _ _ _ _ Hrow). apply lookup_ge_None_2.
    rewrite (square_lookup n D i row HD Hrow).
    destruct Hij as [Hi|Hj]; [|done].
    apply lookup_lt_Some in Hrow. destruct HD as [HD _]. lia.
  - by apply cell_None.
Qed.


Lemma cell_empty_square_matrix n i j :
  i < n -> j < n -> cell (empty_square_matrix n) i j = Some 0%float.
Proof.
  intros Hi Hj. rewrite empty_square_matrix_replicate.
  rewrite (cell_Some _ i j (replicate n 0%float)).
  - by apply lookup_replicate_2.
  - by apply lookup_replicate_2.
Qed.

(** ** The chunked builders on other numbers of jobs *)

Lemma floordiv_negative (n : nat) (d : Z) :
  (d < 0)%Z -> 0 < n ->
  exists c, floordiv n d = Ok c /\ (c < 0)%Z.
Proof.
  intros Hd Hn. unfold floordiv. rewrite decide_False by lia.
  eexists. split; [reflexivity|].
  pose proof (Z.div_mod (Z.of_nat n) d) as Hdm.
  pose proof (Z.mod_neg_bound (Z.of_nat n) d Hd). nia.
Qed.

Lemma range_step_negative (stop : nat) (c : Z) :
  (c < 0)%Z -> range_step stop c = Ok [].
Proof.
  intros Hc. unfold range_step.
  rewrite decide_False by lia. by rewrite decide_True by lia.
Qed.


(** ** The random dataset *)

(** The inner loop appends [n] draws to the list object [row]. *)
Lemma rd_inner_loop (rnd : nat -> float) (row : nat) (it : list nat)
    (st : rd_state) :
  foldl (fun st _ => rd_append_random rnd row st) st it
  = RdState
      (alter (fun l => l ++ map rnd (seq (rs_calls st) (length it))) row
             (rs_rows st))
      (rs_X st)
      (rs_calls st + length it).
Proof.
  revert st. induction it as [|a it IH]; intros [rows X c]; simpl.
  - f_equal; [|lia]. symmetry. apply list_alter_id. intros l. apply app_nil_r.
  - rewrite IH. unfold rd_append_random. simpl. f_equal; [|lia].
    rewrite list_alter_alter_eq. apply list_alter_ext; [|done].
    intros l _. simpl. by rewrite <- app_assoc.
Qed.

Lemma rd_outer_loop (rnd : nat -> float) (n m : nat) :
  foldl (fun st _ => rd_new_row rnd n st) (RdState [] [] 0) (seq 0 m)
  = RdState (map (fun i => map rnd (seq (i * n) n)) (seq 0 m))
            (seq 0 m) (m * n).
Proof.
  induction m as [|m IH]; [done|].
  rewrite seq_S, foldl_app, IH. simpl.
  unfold rd_new_row, range. rewrite rd_inner_loop. simpl.
  rewrite length_map, !length_seq. f_equal; [|lia].
  rewrite map_app. simpl.
  rewrite alter_app_r_alt by (rewrite length_map, length_seq; lia).
  by rewrite length_map, length_seq, Nat.sub_diag.
Qed.

Lemma rd_value_rows (rows : list (list float)) (c : nat) :
  rd_value (RdState rows (seq 0 (length rows)) c) = rows.
Proof.
  unfold rd_value. simpl. apply list_eq. intros i.
  change (map ?f ?l) with (f <$> l). rewrite list_lookup_fmap.
  destruct (rows !! i) as [row|] eqn:Hi.
  - rewrite lookup_seq_lt by (by eapply lookup_lt_Some). simpl. by rewrite Hi.
  - rewrite lookup_seq_ge; [done|]. by apply lookup_ge_None.
Qed.

Lemma random_dataset_eq (rnd : nat -> float) (m n : nat) :
  random_dataset rnd m n
  = map (fun i => map (fun j => rnd (i * n + j)) (range n)) (range m).
Proof.
  unfold random_dataset, range. rewrite rd_outer_loop.
  set (rows := map (fun i => map rnd (seq (i * n) n)) (seq 0 m)).
  assert (length rows = m) as Hlen
    by (unfold rows; by rewrite length_map, length_seq).
  transitivity rows.
  - pose proof (rd_value_rows rows (m * n)) as Hv. by rewrite Hlen in Hv.
  - unfold rows. apply map_ext. intros i.
    transitivity (map rnd (Nat.add (i * n) <$> seq 0 n)).
    + by rewrite fmap_add_seq, Nat.add_0_r.
    + change (?f <$> ?l) with (map f l). by rewrite map_map.
Qed.

Lemma length_random_dataset (rnd : nat -> float) (m n : nat) :
  length (random_dataset rnd m n) = m.
Proof. rewrite random_dataset_eq. unfold range. by rewrite length_map, length_seq. Qed.

Lemma equal_length_random_dataset (rnd : nat -> float) (m n : nat) :
  equal_length (random_dataset rnd m n).
Proof.
  rewrite random_dataset_eq. unfold range.
  destruct m as [|m]; [done|]. cbn [seq map equal_length].
  apply Forall_forall. intros row Hrow.
  rewrite !length_map, length_seq.
  apply elem_of_cons in Hrow as [->|Hrow].
  - by rewrite length_map, length_seq.
  - apply list_elem_of_fmap in Hrow as (i & -> & _).
    by rewrite length_map, length_seq.
Qed.

(** ** Worked examples *)

Section examples.
Context (P : platform).
Local Open Scope float_scope.

Lemma eucl_dist_0_0_3_4 : eucl_dist P [0; 0] [3; 4] = Ok 5.
Proof.
  unfold eucl_dist. rewrite !sq_diffs_cons, sq_diffs_nil_l.
  rewrite (float_pow2_small P (0 - 3) 3), (float_pow2_small P (0 - 4) 4)
    by (lia || reflexivity).
  reflexivity.
Qed.

Lemma eucl_dist_3_0_4 : eucl_dist P [3] [0; 4] = Ok 3.
Proof.
  unfold eucl_dist. rewrite !sq_diffs_cons, sq_diffs_nil_l.
  rewrite (float_pow2_small P (3 - 0) 3) by (lia || reflexivity).
  reflexivity.
Qed.

(** The matrix of one row and of two rows. *)
Lemma eucl_dist_matrix_one_row (x : vector) :
  eucl_dist_matrix P [x] = Ok [[if finite_vector x then 0 else nan]].
Proof.
  rewrite eucl_dist_matrix_outcome.
  unfold overflowing, dist_matrix, raises_at, raises, dist_value.
  cbn -[eucl_dist]. by rewrite eucl_dist_self.
Qed.

Lemma eucl_dist_matrix_two_rows (x y : vector) (d : float) :
  finite_vector x = true -> finite_vector y = true ->
  eucl_dist P x y = Ok d ->
  eucl_dist_matrix P [x; y] = Ok [[0; d]; [d; 0]].
Proof.
  intros Hx Hy Hd. rewrite eucl_dist_matrix_outcome.
  pose proof (eucl_dist_diag P x Hx) as Hxx.
  pose proof (eucl_dist_diag P y Hy) as Hyy.
  pose proof Hd as Hd'. rewrite eucl_dist_sym in Hd'.
  unfold overflowing, dist_matrix, raises_at, raises, dist_value.
  cbn -[eucl_dist]. by rewrite Hxx, Hyy, Hd, Hd'.
Qed.

Lemma eucl_dist_matrix_3_4 :
  eucl_dist_matrix P [[0; 0]; [3; 4]] = Ok [[0; 5]; [5; 0]].
Proof.
  apply eucl_dist_matrix_two_rows; [done | done | apply eucl_dist_0_0_3_4].
Qed.

Lemma eucl_dist_matrix_1_1_1 : eucl_dist_matrix P [[1; 1; 1]] = Ok [[0]].
Proof. apply (eucl_dist_matrix_one_row [1; 1; 1]). Qed.

End examples.

(** ** What the returned matrix holds *)

Lemma eucl_dist_matrix_cells P (X : dataset) (D : matrix) :
  eucl_dist_matrix P X = Ok D ->
  square (length X) D /\
  forall i j xi xj, X !! i = Some xi -> X !! j = Some xj ->
    eucl_dist P xi xj = Ok (dist_value P xi xj)
    /\ cell D i j = Some (dist_value P xi xj).
Proof.
  intros [Hov ->]%eucl_dist_matrix_Ok_inv.
  split; [apply square_dist_matrix|].
  intros i j xi xj Hi Hj. split.
  - by apply (overflowing_false P X i j).
  - by apply cell_dist_matrix.
Qed.

(** [eucl_dist] on any two vectors, [m] being the length of the shorter
    one. *)
Lemma eucl_dist_spec P (x y : vector) :
  (eucl_dist P x y = Raise OverflowError /\
   exists i, i < min (length x) (length y) /\
     float_pow2 P (nth i x 0 - nth i y 0)%float = Raise OverflowError)
  \/ (exists d, eucl_dist P x y = Ok d /\
        d = sqrt (sum_sq_diff P (min (length x) (length y)) x y) /\
        (forall i, i < min (length x) (length y) ->
           float_pow2 P (nth i x 0 - nth i y 0)%float
           = Ok (pow2_value P (nth i x 0 - nth i y 0)%float)) /\
        ((0 <=? d)%float = true \/ is_nan d = true) /\
        (finite_vector x = true -> finite_vector y = true ->
         (0 <=? d)%float = true)).
Proof.
  destruct (eucl_dist_formula P x y) as [H|[Hd Hall]]; [by left|].
  right. eexists. split; [exact Hd|]. split; [done|]. split; [done|]. split.
  - by apply (eucl_dist_not_negative P x y).
  - intros Hx Hy. by apply (eucl_dist_finite P x y).
Qed.

(** * The properties of the specification *)

(** C1. On the dataset [[0,0],[3,4]] with the default [n_jobs = 8], the
    threaded builder [eucl_dist_matrix_thr_4] does not return the matrix of
    the sequential builder: the chunk size [2 // 8] is 0, [range(0, 2, 0)]
    raises [ValueError] before any thread is started, whatever the
    scheduler, while the sequential builder returns [[0,5],[5,0]]. *)
Theorem C1_thr_4_default_jobs_two_rows (P : platform)
    (sched : list nat -> list nat) :
  eucl_dist_matrix_thr_4 P sched [[0; 0]; [3; 4]]%float n_jobs_default
  = Raise ValueError
  /\ eucl_dist_matrix P [[0; 0]; [3; 4]]%float = Ok [[0; 5]; [5; 0]]%float.
Proof.
  split.
  - apply eucl_dist_matrix_thr_4_too_many_jobs.
    + simpl. by repeat constructor.
    + unfold n_jobs_default. simpl. lia.
  - apply eucl_dist_matrix_3_4.
Qed.



(** C3, as stated, fails: on the vectors [1e200] and [0.0], of one length,
    the square of the difference overflows and [eucl_dist] raises
    [OverflowError]; on [inf] and [inf] it returns nan, which is not
    non-negative. *)
Lemma C3_counterexample :
  length [0x1.4e718d7d7625ap+664]%float = length [0]%float
  /\ eucl_dist correctly_rounded [0x1.4e718d7d7625ap+664]%float [0]%float
     = Raise OverflowError
  /\ length [infinity] = length [infinity]
  /\ eucl_dist correctly_rounded [infinity] [infinity] = Ok nan
  /\ (0 <=? nan)%float = false.
Proof. repeat split; vm_compute; reflexivity. Qed.

(** C3, amended.  On two vectors of floats of equal length, [eucl_dist]
    raises [OverflowError] if the square of some difference of components
    overflows; otherwise it returns the float square root of the float sum,
    taken from left to right, of the squared differences of the components.
    The float returned is never negative; it is a number [>= 0] when both
    vectors are finite, and can be nan when they are not. *)
Theorem C3_eucl_dist_equal_length (P : platform) (x y : vector) :
  length x = length y ->
  (eucl_dist P x y = Raise OverflowError /\
   exists i, i < length x /\
     float_pow2 P (nth i x 0 - nth i y 0)%float = Raise OverflowError)
  \/ (exists d, eucl_dist P x y = Ok d /\
        d = sqrt (sum_sq_diff P (length x) x y) /\
        (forall i, i < length x ->
           float_pow2 P (nth i x 0 - nth i y 0)%float
           = Ok (pow2_value P (nth i x 0 - nth i y 0)%float)) /\
        ((0 <=? d)%float = true \/ is_nan d = true) /\
        (finite_vector x = true -> finite_vector y = true ->
         (0 <=? d)%float = true)).
Proof.
  intros Hlen. pose proof (eucl_dist_spec P x y) as H.
  by rewrite <- Hlen, Nat.min_id in H.
Qed.

Lemma C3_witness :
  (eucl_dist correctly_rounded [0; 0]%float [3; 4]%float
   = Raise OverflowError /\
   exists i, i < length [0; 0]%float /\
     float_pow2 correctly_rounded
       (nth i [0; 0] 0 - nth i [3; 4] 0)%float = Raise OverflowError)
  \/ (exists d, eucl_dist correctly_rounded [0; 0]%float [3; 4]%float = Ok d /\
        d = sqrt (sum_sq_diff correctly_rounded (length [0; 0]%float)
                    [0; 0]%float [3; 4]%float) /\
        (forall i, i < length [0; 0]%float ->
           float_pow2 correctly_rounded (nth i [0; 0] 0 - nth i [3; 4] 0)%float
           = Ok (pow2_value correctly_rounded
                   (nth i [0; 0] 0 - nth i [3; 4] 0)%float)) /\
        ((0 <=? d)%float = true \/ is_nan d = true) /\
        (finite_vector [0; 0]%float = true ->
         finite_vector [3; 4]%float = true ->
         (0 <=? d)%float = true)).
Proof.
  apply (C3_eucl_dist_equal_length correctly_rounded [0; 0]%float [3; 4]%float).
  reflexivity.
Defined.

(** C4, as stated, fails: on the dataset [[inf]] the builder returns
    [[nan]], and [nan == nan] is false, so [matrix[0][0] == matrix[0][0]]
    does not hold; and on the finite dataset [[1e200], [0.0]] the builder
    returns no matrix at all, it raises [OverflowError]. *)
Lemma C4_counterexample :
  eucl_dist_matrix correctly_rounded [[infinity]] = Ok [[nan]]
  /\ cell [[nan]] 0 0 = Some nan
  /\ (nan =? nan)%float = false
  /\ eucl_dist_matrix correctly_rounded
       [[0x1.4e718d7d7625ap+664]; [0]]%float = Raise OverflowError.
Proof. repeat split; vm_compute; reflexivity. Qed.

(** C4, amended.  Whenever the builder returns, entries [(i, j)] and
    [(j, i)] of the matrix hold the same float, for all [i, j < n]; on a
    dataset of finite numbers that float is no nan, so that
    [matrix[i][j] == matrix[j][i]] holds. *)
Theorem C4_eucl_dist_matrix_symmetric (P : platform) (X : dataset)
    (D : matrix) :
  eucl_dist_matrix P X = Ok D ->
  forall i j, i < length X -> j < length X ->
    exists a b, cell D i j = Some a /\ cell D j i = Some b /\ a = b /\
      (finite_dataset X -> (a =? b)%float = true).
Proof.
  intros [_ Hcells]%eucl_dist_matrix_cells i j Hi Hj.
  destruct (lookup_lt_is_Some_2 X i Hi) as [xi Hxi].
  destruct (lookup_lt_is_Some_2 X j Hj) as [xj Hxj].
  destruct (Hcells i j xi xj Hxi Hxj) as [Hd Hij].
  destruct (Hcells j i xj xi Hxj Hxi) as [_ Hji].
  exists (dist_value P xi xj), (dist_value P xi xj).
  split; [done|]. split; [by rewrite (dist_value_sym P xi xj)|].
  split; [done|].
  intros HX. apply eqb_refl, non_negative_not_nan.
  apply (eucl_dist_finite P xi xj); [| |done].
  - apply (proj1 (Forall_forall _ _) HX). by eapply list_elem_of_lookup_2.
  - apply (proj1 (Forall_forall _ _) HX). by eapply list_elem_of_lookup_2.
Qed.

Lemma C4_witness :
  exists a b, cell [[0; 5]; [5; 0]]%float 0 1 = Some a /\
    cell [[0; 5]; [5; 0]]%float 1 0 = Some b /\ a = b /\
    (finite_dataset [[0; 0]; [3; 4]]%float -> (a =? b)%float = true).
Proof.
  apply (C4_eucl_dist_matrix_symmetric correctly_rounded
           [[0; 0]; [3; 4]]%float [[0; 5]; [5; 0]]%float).
  - vm_compute. reflexivity.
  - simpl. lia.
  - simpl. lia.
Defined.

(** C5, as stated, fails: on the dataset [[inf]] the builder returns
    [[nan]], so [matrix[0][0] == 0] does not hold; and on the finite dataset
    [[1e200], [0.0]] the builder returns no matrix at all, it raises
    [OverflowError]. *)
Lemma C5_counterexample :
  eucl_dist_matrix correctly_rounded [[infinity]] = Ok [[nan]]
  /\ cell [[nan]] 0 0 = Some nan
  /\ (nan =? 0)%float = false
  /\ eucl_dist_matrix correctly_rounded
       [[0x1.4e718d7d7625ap+664]; [0]]%float = Raise OverflowError.
Proof. repeat split; vm_compute; reflexivity. Qed.

(** C5, amended.  Whenever the builder returns, entry [(i, i)] of the
    matrix is [0.0] if row [i] of the dataset holds finite numbers only, and
    nan if it holds an infinity or a nan. *)
Theorem C5_eucl_dist_matrix_zero_diagonal (P : platform) (X : dataset)
    (D : matrix) :
  eucl_dist_matrix P X = Ok D ->
  forall i xi, X !! i = Some xi ->
    cell D i i = Some (if finite_vector xi then 0%float else nan).
Proof.
  intros [_ Hcells]%eucl_dist_matrix_cells i xi Hi.
  destruct (Hcells i i xi xi Hi Hi) as [Hd ->].
  rewrite eucl_dist_self in Hd. by injection Hd as <-.
Qed.

Lemma C5_witness :
  cell [[0; 5]; [5; 0]]%float 1 1
  = Some (if finite_vector [3; 4]%float then 0%float else nan).
Proof.
  apply (C5_eucl_dist_matrix_zero_diagonal correctly_rounded
           [[0; 0]; [3; 4]]%float [[0; 5]; [5; 0]]%float).
  - vm_compute. reflexivity.
  - reflexivity.
Defined.

(** C6. Whatever orders [random.sample] draws for the rows and, in each row,
    for the columns, the shuffled builder returns the matrix of the
    sequential builder, or raises [OverflowError] as the sequential builder
    does. *)
Theorem C6_shuffled_same_as_sequential (P : platform)
    (sample : nat -> list nat -> list nat) (X : dataset) :
  (forall c l, sample c l ≡ₚ l) ->
  eucl_dist_matrix_shuffled P sample X = eucl_dist_matrix P X.
Proof.
  intros Hperm.
  rewrite eucl_dist_matrix_outcome. by apply eucl_dist_matrix_shuffled_outcome.
Qed.

Lemma C6_witness :
  eucl_dist_matrix_shuffled correctly_rounded
    (fun c l => rotate c (reverse l)) [[0; 0]; [3; 4]; [6; 8]]%float
  = eucl_dist_matrix correctly_rounded [[0; 0]; [3; 4]; [6; 8]]%float.
Proof.
  apply (C6_shuffled_same_as_sequential correctly_rounded
           (fun c l => rotate c (reverse l))).
  intros c l. transitivity (reverse l); [|apply reverse_Permutation].
  unfold rotate. rewrite Permutation_app_comm. by rewrite take_drop.
Defined.

(** C7, as stated, fails: on [3] and [0, 4], whose lengths differ, the
    distance function raises nothing and returns the ordinary value 3. *)
Lemma C7_counterexample :
  length [3]%float <> length [0; 4]%float
  /\ eucl_dist correctly_rounded [3]%float [0; 4]%float = Ok 3%float.
Proof. split; [simpl; lia | vm_compute; reflexivity]. Qed.

(** C7, amended.  Lengths that differ make no failure: [zip] stops with the
    shorter vector, and [eucl_dist] does on the two vectors what it does on
    the two vectors cut to the length [m] of the shorter one.  It raises
    [OverflowError] if the square of one of the first [m] differences
    overflows; otherwise it returns the float square root of the float sum
    of the first [m] squared differences, which is never negative. *)
Theorem C7_eucl_dist_lengths_differ (P : platform) (x y : vector) :
  length x <> length y ->
  eucl_dist P x y
  = eucl_dist P (take (min (length x) (length y)) x)
                (take (min (length x) (length y)) y)
  /\ ((eucl_dist P x y = Raise OverflowError /\
       exists i, i < min (length x) (length y) /\
         float_pow2 P (nth i x 0 - nth i y 0)%float = Raise OverflowError)
      \/ (exists d, eucl_dist P x y = Ok d /\
            d = sqrt (sum_sq_diff P (min (length x) (length y)) x y) /\
            (forall i, i < min (length x) (length y) ->
               float_pow2 P (nth i x 0 - nth i y 0)%float
               = Ok (pow2_value P (nth i x 0 - nth i y 0)%float)) /\
            ((0 <=? d)%float = true \/ is_nan d = true) /\
            (finite_vector x = true -> finite_vector y = true ->
             (0 <=? d)%float = true))).
Proof.
  intros _. split; [by rewrite eucl_dist_take | apply eucl_dist_spec].
Qed.

Lemma C7_witness :
  eucl_dist correctly_rounded [3]%float [0; 4]%float
  = eucl_dist correctly_rounded
      (take (min (length [3]%float) (length [0; 4]%float)) [3]%float)
      (take (min (length [3]%float) (length [0; 4]%float)) [0; 4]%float)
  /\ ((eucl_dist correctly_rounded [3]%float [0; 4]%float
       = Raise OverflowError /\
       exists i, i < min (length [3]%float) (length [0; 4]%float) /\
         float_pow2 correctly_rounded (nth i [3] 0 - nth i [0; 4] 0)%float
         = Raise OverflowError)
      \/ (exists d,
            eucl_dist correctly_rounded [3]%float [0; 4]%float = Ok d /\
            d = sqrt (sum_sq_diff correctly_rounded
                        (min (length [3]%float) (length [0; 4]%float))
                        [3]%float [0; 4]%float) /\
            (forall i, i < min (length [3]%float) (length [0; 4]%float) ->
               float_pow2 correctly_rounded
                 (nth i [3] 0 - nth i [0; 4] 0)%float
               = Ok (pow2_value correctly_rounded
                       (nth i [3] 0 - nth i [0; 4] 0)%float)) /\
            ((0 <=? d)%float = true \/ is_nan d = true) /\
            (finite_vector [3]%float = true ->
             finite_vector [0; 4]%float = true ->
             (0 <=? d)%float = true))).
Proof.
  apply (C7_eucl_dist_lengths_differ correctly_rounded [3]%float [0; 4]%float).
  simpl. lia.
Defined.

(** C8. On [[0,0],[3,4]] the builder returns [[0,5],[5,0]], and on
    [[1,1,1]] it returns [[0]]. *)
Theorem C8_eucl_dist_matrix_examples (P : platform) :
  eucl_dist_matrix P [[0; 0]; [3; 4]]%float = Ok [[0; 5]; [5; 0]]%float
  /\ eucl_dist_matrix P [[1; 1; 1]]%float = Ok [[0]]%float.
Proof.
  split; [apply eucl_dist_matrix_3_4 | apply eucl_dist_matrix_1_1_1].
Qed.

(** C9. A failure the specification does not list: on [[0,0],[3,4]], a
    dataset that is not empty and whose rows have one length, the builder
    with processes computes the chunk size [2 // 8 = 0] and
    [range(0, 2, 0)] raises [ValueError], where the sequential builder
    returns [[0,5],[5,0]]. *)
Theorem C9_eucl_dist_matrix_p_two_rows (P : platform) :
  eucl_dist_matrix_p P [[0; 0]; [3; 4]]%float = Raise ValueError
  /\ eucl_dist_matrix P [[0; 0]; [3; 4]]%float = Ok [[0; 5]; [5; 0]]%float.
Proof.
  split.
  - apply eucl_dist_matrix_p_small. simpl. lia.
  - apply eucl_dist_matrix_3_4.
Qed.

(** C10, as stated, fails: [eucl_dist] does not return on every pair of
    vectors; on [1e200] and [0.0, 1.0] the square of the first difference
    overflows and it raises [OverflowError]. *)
Lemma C10_counterexample :
  eucl_dist correctly_rounded [0x1.4e718d7d7625ap+664]%float [0; 1]%float
  = Raise OverflowError.
Proof. vm_compute. reflexivity. Qed.

(** C10, amended.  On every pair of vectors of floats, of equal lengths or
    not, [eucl_dist] looks at the first [m = min (len x) (len y)]
    components only.  It raises [OverflowError] if the square of one of
    these [m] differences overflows; otherwise it returns the float square
    root of the float sum of the [m] squared differences.  The components of
    the longer vector beyond [m] take no part. *)
Theorem C10_eucl_dist_common_prefix (P : platform) (x y : vector) :
  eucl_dist P x y
  = eucl_dist P (take (min (length x) (length y)) x)
                (take (min (length x) (length y)) y)
  /\ ((eucl_dist P x y = Raise OverflowError /\
       exists i, i < min (length x) (length y) /\
         float_pow2 P (nth i x 0 - nth i y 0)%float = Raise OverflowError)
      \/ (exists d, eucl_dist P x y = Ok d /\
            d = sqrt (sum_sq_diff P (min (length x) (length y)) x y) /\
            forall i, i < min (length x) (length y) ->
              float_pow2 P (nth i x 0 - nth i y 0)%float
              = Ok (pow2_value P (nth i x 0 - nth i y 0)%float))).
Proof.
  split; [by rewrite eucl_dist_take|].
  destruct (eucl_dist_formula P x y) as [H|[Hd Hall]]; [by left|].
  right. eexists. by split; [exact Hd|].
Qed.

(** * Further properties of the notebook's functions *)

(** ** The chunked builders against scipy's [cdist] *)

(** X1. Between one job and one job per row, and whether or not the number
    of jobs divides the number of rows, the threaded builder (in whatever
    order the threads' slice assignments take effect) and the builder
    without threads both return the matrix [cdist(X, X)] of scipy. *)
Theorem eucl_dist_matrix_thr_4_cdist (P : platform) sched (X : dataset)
    (n_jobs : Z) :
  (forall l, sched l ≡ₚ l) ->
  equal_length X ->
  (1 <= n_jobs <= Z.of_nat (length X))%Z ->
  eucl_dist_matrix_thr_4 P sched X n_jobs = Ok (cdist P X X)
  /\ eucl_dist_matrix_4 P X n_jobs = Ok (cdist P X X).
Proof.
  intros Hperm HX Hjobs. split.
  - by apply eucl_dist_matrix_thr_4_Ok.
  - by apply eucl_dist_matrix_4_Ok.
Qed.

(** Three rows in two jobs: chunks of one row, three threads, run last to
    first. *)
Lemma eucl_dist_matrix_thr_4_cdist_witness :
  eucl_dist_matrix_thr_4 correctly_rounded reverse
    [[0; 0]; [3; 4]; [6; 8]]%float 2
  = Ok (cdist correctly_rounded [[0; 0]; [3; 4]; [6; 8]]%float
          [[0; 0]; [3; 4]; [6; 8]]%float)
  /\ eucl_dist_matrix_4 correctly_rounded [[0; 0]; [3; 4]; [6; 8]]%float 2
     = Ok (cdist correctly_rounded [[0; 0]; [3; 4]; [6; 8]]%float
             [[0; 0]; [3; 4]; [6; 8]]%float).
Proof.
  apply (eucl_dist_matrix_thr_4_cdist correctly_rounded reverse).
  - apply reverse_Permutation.
  - simpl. by repeat constructor.
  - simpl. lia.
Defined.

(** ** The threaded builders against the sequential one *)

(** X2. One thread per cell (cell 21): if the sequential builder returns a
    matrix, the threaded builder returns the same matrix, however the
    threads are scheduled. *)
Theorem eucl_dist_matrix_thr_sequential (P : platform) (sched : list nat)
    (X : dataset) (D : matrix) :
  eucl_dist_matrix P X = Ok D ->
  eucl_dist_matrix_thr P sched X = Ok D.
Proof.
  intros [Hov ->]%eucl_dist_matrix_Ok_inv.
  by apply eucl_dist_matrix_thr_no_overflow.
Qed.

Lemma eucl_dist_matrix_thr_sequential_witness :
  eucl_dist_matrix_thr correctly_rounded [3; 0; 2; 2; 1]
    [[0; 0]; [3; 4]]%float
  = Ok [[0; 5]; [5; 0]]%float.
Proof.
  apply (eucl_dist_matrix_thr_sequential correctly_rounded [3; 0; 2; 2; 1]
           [[0; 0]; [3; 4]]%float [[0; 5]; [5; 0]]%float).
  vm_compute. reflexivity.
Defined.

(** X3. One thread per row (cell 25): if the sequential builder returns a
    matrix, the threaded builder returns the same matrix, however the
    statements of the threads interleave. *)
Theorem eucl_dist_matrix_thr_2_sequential (P : platform) (sched : list nat)
    (X : dataset) (D : matrix) :
  eucl_dist_matrix P X = Ok D ->
  eucl_dist_matrix_thr_2 P sched X = Ok D.
Proof.
  intros [Hov ->]%eucl_dist_matrix_Ok_inv.
  by apply eucl_dist_matrix_thr_2_no_overflow.
Qed.

Lemma eucl_dist_matrix_thr_2_sequential_witness :
  eucl_dist_matrix_thr_2 correctly_rounded [1; 0; 1] [[0; 0]; [3; 4]]%float
  = Ok [[0; 5]; [5; 0]]%float.
Proof.
  apply (eucl_dist_matrix_thr_2_sequential correctly_rounded [1; 0; 1]
           [[0; 0]; [3; 4]]%float [[0; 5]; [5; 0]]%float).
  vm_compute. reflexivity.
Defined.

(** X17. One thread per cell, on every dataset: the threaded builder
    never raises.  A thread in which [eucl_dist] raises ends without a
    trace, so the builder returns an [n]-by-[n] matrix in which entry
    [(i, j)] is the float [eucl_dist] returns on rows [i] and [j], and is
    left at 0 where [eucl_dist] raises, however the threads are
    scheduled. *)
Theorem eucl_dist_matrix_thr_every_dataset (P : platform) (sched : list nat)
    (X : dataset) :
  exists D, eucl_dist_matrix_thr P sched X = Ok D /\
    square (length X) D /\
    forall i j xi xj, X !! i = Some xi -> X !! j = Some xj ->
      cell D i j = Some (match eucl_dist P xi xj with
                         | Ok d => d
                         | Raise _ => 0%float
                         end).
Proof.
  eexists. split; [reflexivity|].
  destruct (run_threads_spec P X sched _ (empty_square_matrix (length X))
              (square_empty_square_matrix _) (threads_thr_range X))
    as [Hsq Hc].
  split; [done|]. intros i j xi xj Hxi Hxj.
  assert (i < length X) as Hi by (by eapply lookup_lt_Some).
  assert (j < length X) as Hj by (by eapply lookup_lt_Some).
  rewrite (Hc i j Hi Hj).
  pose proof (raises_at_lookup P X i j xi xj Hxi Hxj) as Hr.
  destruct (eucl_dist_cases P xi xj) as [[-> Hok]|[-> Hraise]].
  - rewrite decide_True; [by apply cell_dist_matrix|].
    apply to_write_thr. by rewrite Hr.
  - rewrite decide_False; [by apply cell_empty_square_matrix|].
    rewrite to_write_thr, Hr, Hraise. by intros (_ & _ & ?).
Qed.

(** X18. One thread per row, on every dataset: the threaded builder never
    raises.  The thread of row [i] ends at the first column on which
    [eucl_dist] raises, so the builder returns an [n]-by-[n] matrix in
    which entry [(i, j)] is the float [eucl_dist] returns on rows [i] and
    [j] if [eucl_dist] raises on none of the columns [0 .. j] of row [i],
    and is left at 0 otherwise, however the statements of the threads
    interleave. *)
Theorem eucl_dist_matrix_thr_2_every_dataset (P : platform)
    (sched : list nat) (X : dataset) :
  exists D, eucl_dist_matrix_thr_2 P sched X = Ok D /\
    square (length X) D /\
    forall i j xi xj, X !! i = Some xi -> X !! j = Some xj ->
      cell D i j = Some (if existsb (raises P xi) (take (S j) X)
                         then 0%float else dist_value P xi xj).
Proof.
  eexists. split; [reflexivity|].
  destruct (run_threads_spec P X sched _ (empty_square_matrix (length X))
              (square_empty_square_matrix _) (threads_thr_2_range X))
    as [Hsq Hc].
  split; [done|]. intros i j xi xj Hxi Hxj.
  assert (i < length X) as Hi by (by eapply lookup_lt_Some).
  assert (j < length X) as Hj by (by eapply lookup_lt_Some).
  rewrite (Hc i j Hi Hj).
  destruct (existsb (raises P xi) (take (S j) X)) eqn:Hex.
  - rewrite decide_False; [by apply cell_empty_square_matrix|].
    rewrite to_write_thr_2. intros (_ & _ & Hall).
    apply existsb_exists in Hex as (x' & Hin & Hraise).
    apply list_elem_of_In, list_elem_of_lookup in Hin as [j' Hj'].
    apply lookup_take_Some in Hj' as [Hj' Hlt].
    specialize (Hall j' ltac:(lia)).
    rewrite (raises_at_lookup P X i j' xi x' Hxi Hj') in Hall. congruence.
  - rewrite decide_True; [by apply cell_dist_matrix|].
    apply to_write_thr_2. split; [done|]. split; [done|].
    intros j' Hj'.
    destruct (lookup_lt_is_Some_2 X j' ltac:(lia)) as [x' Hx'].
    rewrite (raises_at_lookup P X i j' xi x' Hxi Hx').
    apply not_true_iff_false. intros Hraise.
    apply not_true_iff_false in Hex. apply Hex.
    apply existsb_exists. exists x'. split; [|done].
    apply list_elem_of_In, (list_elem_of_lookup_2 _ j').
    apply lookup_take_Some. split; [done | lia].
Qed.

(** ** Rows computed by numpy *)

(** X4. One thread per row, the row computed by numpy (cell 35): on rows of
    one length, in whatever order the threads' assignments take effect,
    [eucl_dist_matrix_thr_3] returns an [n]-by-[n] matrix whose entry
    [(i, j)] is numpy's value: the square root of [np.sum] of the squared
    differences of rows [i] and [j]. *)
Theorem eucl_dist_matrix_thr_3_numpy (P : platform) sched (X : dataset) :
  (forall l, sched l ≡ₚ l) ->
  equal_length X ->
  exists D, eucl_dist_matrix_thr_3 P sched X = Ok D /\
    square (length X) D /\
    forall i j xi xj, X !! i = Some xi -> X !! j = Some xj ->
      cell D i j
      = Some (sqrt (np_sum P (map (fun v => (v * v)%float)
                                  (zip_with sub xi xj)))).
Proof.
  intros Hperm HX. eexists.
  split; [by apply eucl_dist_matrix_thr_3_Ok|]. split.
  - split; [by rewrite length_map|].
    apply Forall_forall. intros row Hrow.
    change (map ?f ?l) with (f <$> l) in Hrow.
    apply list_elem_of_fmap in Hrow as (xi & -> & _). apply length_np_row.
  - intros i j xi xj Hi Hj.
    rewrite (cell_Some _ i j (np_row P xi X)).
    + by apply np_row_lookup.
    + change (map ?f ?l) with (f <$> l). by rewrite list_lookup_fmap, Hi.
Qed.

Lemma eucl_dist_matrix_thr_3_numpy_witness :
  exists D,
    eucl_dist_matrix_thr_3 correctly_rounded reverse
      [[0; 0]; [3; 4]; [6; 8]]%float = Ok D /\
    square (length [[0; 0]; [3; 4]; [6; 8]]%float) D /\
    forall i j xi xj,
      [[0; 0]; [3; 4]; [6; 8]]%float !! i = Some xi ->
      [[0; 0]; [3; 4]; [6; 8]]%float !! j = Some xj ->
      cell D i j
      = Some (sqrt (np_sum correctly_rounded
                      (map (fun v => (v * v)%float) (zip_with sub xi xj)))).
Proof.
  apply (eucl_dist_matrix_thr_3_numpy correctly_rounded reverse).
  - apply reverse_Permutation.
  - simpl. by repeat constructor.
Defined.

(** ** The chunks as a list of blocks *)

(** X5. Between one job and one job per row, [eucl_dist_matrix_jl] returns
    no matrix but a list of blocks of rows: at least [n_jobs] blocks and
    fewer than [2 * n_jobs], which put end to end, in the order of the list,
    are the rows of scipy's [cdist(X, X)]. *)
Theorem eucl_dist_matrix_jl_blocks (P : platform) (X : dataset) (n_jobs : Z) :
  equal_length X ->
  (1 <= n_jobs <= Z.of_nat (length X))%Z ->
  exists blocks, eucl_dist_matrix_jl P X n_jobs = Ok blocks /\
    concat blocks = cdist P X X /\
    (n_jobs <= Z.of_nat (length blocks) < 2 * n_jobs)%Z.
Proof.
  intros HX Hjobs. set (n := length X). set (k := Z.to_nat n_jobs).
  assert (1 <= k <= n) as Hk by (unfold k, n; lia).
  assert (0 < n / k) as Hc by (apply Nat.div_le_lower_bound; lia).
  eexists. split; [|split].
  - unfold eucl_dist_matrix_jl. rewrite (np_array_Ok X HX), bind_Ok.
    rewrite floordiv_nat by lia. fold n k. rewrite bind_Ok.
    rewrite (range_step_pos_eq n (n / k) Hc), bind_Ok. reflexivity.
  - rewrite Nat2Z.id, map_map. unfold task_jl.
    erewrite map_ext; [|intros q; apply cdist_slice].
    rewrite concat_chunks. apply take_ge.
    rewrite length_cdist. by apply chunks_cover.
  - rewrite !length_map, length_seq.
    pose proof (chunk_count n k Hk). lia.
Qed.

Lemma eucl_dist_matrix_jl_blocks_witness :
  exists blocks,
    eucl_dist_matrix_jl correctly_rounded [[0; 0]; [3; 4]; [6; 8]]%float 2
    = Ok blocks /\
    concat blocks
    = cdist correctly_rounded [[0; 0]; [3; 4]; [6; 8]]%float
        [[0; 0]; [3; 4]; [6; 8]]%float /\
    (2 <= Z.of_nat (length blocks) < 2 * 2)%Z.
Proof.
  apply (eucl_dist_matrix_jl_blocks correctly_rounded
           [[0; 0]; [3; 4]; [6; 8]]%float 2).
  - simpl. by repeat constructor.
  - simpl. lia.
Defined.

(** ** The builder with processes *)

(** X6. [eucl_dist_matrix_p] never returns a distance: under 8 rows it
    raises [ValueError] (step 0 in [range]), and from 8 rows on it returns
    the parent's matrix of zeros, the work of the child processes being
    lost. *)
Theorem eucl_dist_matrix_p_result (P : platform) (X : dataset) :
  eucl_dist_matrix_p P X =
  if decide (length X < 8) then Raise ValueError
  else Ok (replicate (length X) (replicate (length X) 0%float)).
Proof.
  destruct (decide (length X < 8)) as [Hn|Hn].
  - by apply eucl_dist_matrix_p_small.
  - rewrite eucl_dist_matrix_p_large by lia.
    by rewrite empty_square_matrix_replicate.
Qed.

Lemma fill_cells_Ok_inv P (X : dataset) ps D D' :
  square (length X) D ->
  Forall (fun p => p.1 < length X /\ p.2 < length X) ps ->
  for_ ps (fun p D => task P D X p.1 p.2) D = Ok D' ->
  existsb (raises_at P X) ps = false.
Proof.
  intros HD Hps HD'. destruct (existsb (raises_at P X) ps) eqn:Hex; [|done].
  by rewrite (fill_Raise P X ps D HD Hps Hex) in HD'.
Qed.

(** X7. What a child process computes on its copy: whenever [task_p]
    returns, on an [n]-by-[n] matrix, the result is an [n]-by-[n] matrix in
    which the cells of the rows [k <= i < k + chunk_size] hold the floats
    [eucl_dist] returns on the rows of the dataset, and every other cell is
    as it was. *)
Theorem task_p_fills_chunk (P : platform) (X : dataset) (D D' : matrix)
    (k chunk_size : nat) :
  square (length X) D ->
  task_p P D X k chunk_size = Ok D' ->
  square (length X) D' /\
  (forall i j xi xj, k <= i < k + chunk_size ->
     X !! i = Some xi -> X !! j = Some xj ->
     exists d, eucl_dist P xi xj = Ok d /\ cell D' i j = Some d) /\
  (forall i j, ~ k <= i < k + chunk_size -> cell D' i j = cell D i j).
Proof.
  intros HD Hrun. set (n := length X).
  set (rows := range_from k (min (k + chunk_size) n)).
  assert (forall i, i ∈ rows <-> k <= i < k + chunk_size /\ i < n) as Hrows.
  { intros i. unfold rows, range_from. rewrite elem_of_seq. lia. }
  set (ps := rows ≫= fun i => pair i <$> range n).
  assert (forall i j, (i, j) ∈ ps <->
            (k <= i < k + chunk_size /\ i < n) /\ j < n) as Hps.
  { intros i j. unfold ps. rewrite list_elem_of_bind. split.
    - intros (i' & Hp & Hi').
      apply list_elem_of_fmap in Hp as (j' & [= -> ->] & Hj').
      apply Hrows in Hi'. apply elem_of_seq in Hj'. lia.
    - intros [Hi Hj]. exists i. split; [|by apply Hrows].
      apply list_elem_of_fmap. exists j. split; [done|].
      apply elem_of_seq. lia. }
  assert (Forall (fun p => p.1 < length X /\ p.2 < length X) ps) as Hrange.
  { apply Forall_forall. intros [i j] Hp. apply Hps in Hp. simpl. fold n. lia. }
  assert (for_ ps (fun p D => task P D X p.1 p.2) D = Ok D') as Hfor.
  { rewrite <- Hrun. unfold task_p. fold n rows. symmetry.
    exact (for_nested (fun i => i) (fun _ => range n)
             (fun p D => task P D X p.1 p.2) rows D). }
  pose proof (fill_cells_Ok_inv P X ps D D' HD Hrange Hfor) as Hok.
  destruct (fill_cells P X ps D HD Hrange Hok) as (D'' & HD'' & Hsq & Hc).
  rewrite Hfor in HD''. injection HD'' as <-.
  split; [done|]. split.
  - intros i j xi xj Hi Hxi Hxj. exists (dist_value P xi xj).
    assert ((i, j) ∈ ps) as Hin.
    { apply Hps. apply lookup_lt_Some in Hxi, Hxj. fold n in Hxi, Hxj. lia. }
    split.
    + destruct (eucl_dist_cases P xi xj) as [[H _]|[_ Hr]]; [done|].
      exfalso. apply not_true_iff_false in Hok. apply Hok.
      apply existsb_exists. exists (i, j).
      split; [by apply list_elem_of_In|].
      by rewrite (raises_at_lookup P X i j xi xj).
    + rewrite Hc, decide_True by done. by apply cell_dist_matrix.
  - intros i j Hi. rewrite Hc, decide_False; [done|].
    intros Hin. apply Hps in Hin. lia.
Qed.

Lemma task_p_fills_chunk_witness :
  square (length [[0; 0]; [3; 4]]%float) [[0; 0]; [5; 0]]%float /\
  (forall i j xi xj, 1 <= i < 1 + 1 ->
     [[0; 0]; [3; 4]]%float !! i = Some xi ->
     [[0; 0]; [3; 4]]%float !! j = Some xj ->
     exists d, eucl_dist correctly_rounded xi xj = Ok d
               /\ cell [[0; 0]; [5; 0]]%float i j = Some d) /\
  (forall i j, ~ 1 <= i < 1 + 1 ->
     cell [[0; 0]; [5; 0]]%float i j = cell (empty_square_matrix 2) i j).
Proof.
  apply (task_p_fills_chunk correctly_rounded [[0; 0]; [3; 4]]%float
           (empty_square_matrix 2) [[0; 0]; [5; 0]]%float 1 1).
  - apply (square_empty_square_matrix 2).
  - vm_compute. reflexivity.
Defined.

(** ** The chunked builders on other numbers of jobs *)

(** X8. With [n_jobs = 0] the three chunked builders raise
    [ZeroDivisionError] on every dataset with rows of one length. *)
Theorem chunked_builders_zero_jobs (P : platform) sched (X : dataset) :
  equal_length X ->
  eucl_dist_matrix_thr_4 P sched X 0 = Raise ZeroDivisionError
  /\ eucl_dist_matrix_4 P X 0 = Raise ZeroDivisionError
  /\ eucl_dist_matrix_jl P X 0 = Raise ZeroDivisionError.
Proof.
  intros HX.
  unfold eucl_dist_matrix_thr_4, eucl_dist_matrix_4, eucl_dist_matrix_jl.
  by rewrite (np_array_Ok X HX), !bind_Ok.
Qed.

Lemma chunked_builders_zero_jobs_witness :
  eucl_dist_matrix_thr_4 correctly_rounded reverse [[0; 0]; [3; 4]]%float 0
  = Raise ZeroDivisionError
  /\ eucl_dist_matrix_4 correctly_rounded [[0; 0]; [3; 4]]%float 0
     = Raise ZeroDivisionError
  /\ eucl_dist_matrix_jl correctly_rounded [[0; 0]; [3; 4]]%float 0
     = Raise ZeroDivisionError.
Proof.
  apply (chunked_builders_zero_jobs correctly_rounded reverse
           [[0; 0]; [3; 4]]%float).
  simpl. by repeat constructor.
Defined.

(** X9. With more jobs than rows, the builder without threads and the one
    with joblib raise [ValueError], as the threaded one does: the chunk size
    is 0.  The empty dataset is such a case for every positive [n_jobs]. *)
Theorem chunked_builders_too_many_jobs (P : platform) (X : dataset)
    (n_jobs : Z) :
  equal_length X ->
  (Z.of_nat (length X) < n_jobs)%Z ->
  eucl_dist_matrix_4 P X n_jobs = Raise ValueError
  /\ eucl_dist_matrix_jl P X n_jobs = Raise ValueError.
Proof.
  intros HX Hjobs. unfold eucl_dist_matrix_4, eucl_dist_matrix_jl.
  rewrite (np_array_Ok X HX), !bind_Ok.
  unfold floordiv. rewrite decide_False by lia.
  by rewrite !bind_Ok, Z.div_small by lia.
Qed.

Lemma chunked_builders_too_many_jobs_witness :
  eucl_dist_matrix_4 correctly_rounded [[0; 0]; [3; 4]]%float 8
  = Raise ValueError
  /\ eucl_dist_matrix_jl correctly_rounded [[0; 0]; [3; 4]]%float 8
     = Raise ValueError.
Proof.
  apply (chunked_builders_too_many_jobs correctly_rounded
           [[0; 0]; [3; 4]]%float 8).
  - simpl. by repeat constructor.
  - simpl. lia.
Defined.

(** X10. With a negative [n_jobs] and at least one row, nothing is raised
    and nothing is computed: the chunk size is negative, the range of chunk
    starts is empty, no thread is started, and the builders return the
    matrix of zeros (joblib's: the empty list). *)
Theorem chunked_builders_negative_jobs (P : platform) sched (X : dataset)
    (n_jobs : Z) :
  (forall l, sched l ≡ₚ l) ->
  equal_length X ->
  (n_jobs < 0)%Z ->
  0 < length X ->
  eucl_dist_matrix_thr_4 P sched X n_jobs
  = Ok (replicate (length X) (replicate (length X) 0%float))
  /\ eucl_dist_matrix_4 P X n_jobs
     = Ok (replicate (length X) (replicate (length X) 0%float))
  /\ eucl_dist_matrix_jl P X n_jobs = Ok [].
Proof.
  intros Hperm HX Hjobs Hn.
  destruct (floordiv_negative (length X) n_jobs Hjobs Hn) as (c & Hc & Hneg).
  unfold eucl_dist_matrix_thr_4, eucl_dist_matrix_4, eucl_dist_matrix_jl.
  rewrite (np_array_Ok X HX), !bind_Ok, Hc, !bind_Ok.
  rewrite (range_step_negative _ c Hneg), !bind_Ok.
  split; [|done].
  assert (sched [] = []) as -> by (apply Permutation_nil_r, Hperm).
  reflexivity.
Qed.

Lemma chunked_builders_negative_jobs_witness :
  eucl_dist_matrix_thr_4 correctly_rounded reverse
    [[0; 0]; [3; 4]]%float (-1)
  = Ok [[0; 0]; [0; 0]]%float
  /\ eucl_dist_matrix_4 correctly_rounded [[0; 0]; [3; 4]]%float (-1)
     = Ok [[0; 0]; [0; 0]]%float
  /\ eucl_dist_matrix_jl correctly_rounded [[0; 0]; [3; 4]]%float (-1)
     = Ok [].
Proof.
  apply (chunked_builders_negative_jobs correctly_rounded reverse
           [[0; 0]; [3; 4]]%float (-1)).
  - apply reverse_Permutation.
  - simpl. by repeat constructor.
  - lia.
  - simpl. lia.
Defined.

(** ** The random dataset *)

(** X11. [random_dataset(m, n)] returns [m] rows of [n] numbers each, so
    rows of one length: row [i] holds, in order, the results of the calls
    number [i * n] to [i * n + n - 1] of [random.random()].  The rows are
    filled after they have been appended to the result, through the shared
    list objects. *)
Theorem random_dataset_rows (rnd : nat -> float) (m n : nat) :
  random_dataset rnd m n
  = map (fun i => map (fun j => rnd (i * n + j)) (range n)) (range m)
  /\ equal_length (random_dataset rnd m n).
Proof.
  split; [apply random_dataset_eq | apply equal_length_random_dataset].
Qed.

(** ** The matrix of zeros *)

(** X12. [empty_square_matrix(n)] is [n] rows of [n] zeros: reading it at
    [(i, j)] gives 0 when both indices are below [n] and is out of range
    otherwise. *)
Theorem empty_square_matrix_cells (n i j : nat) :
  length (empty_square_matrix n) = n /\
  cell (empty_square_matrix n) i j
  = if decide (i < n /\ j < n) then Some 0%float else None.
Proof.
  pose proof (square_empty_square_matrix n) as Hsq.
  split; [by destruct Hsq|].
  destruct (decide (i < n /\ j < n)) as [[Hi Hj]|Hout].
  - by apply cell_empty_square_matrix.
  - apply (cell_out_of_range n); [done | lia].
Qed.

(** ** Distance zero, and the triangle *)

(** X13. The distance of a vector of floats from itself: [eucl_dist(x, x)]
    raises nothing; it returns [0.0] if [x] holds finite numbers only and
    nan if it holds an infinity or a nan.  Distance [0.0] does not tell that
    two vectors are equal: where [pow] rounds correctly, the square of
    [1e-200] underflows and [eucl_dist([1e-200], [0.0])] is [0.0]. *)
Theorem eucl_dist_self_distance :
  (forall (P : platform) (x : vector),
     eucl_dist P x x = Ok (if finite_vector x then 0%float else nan))
  /\ eucl_dist correctly_rounded [0x1.87e92154ef7acp-665]%float [0]%float
     = Ok 0%float.
Proof. split; [apply eucl_dist_self | vm_compute; reflexivity]. Qed.

(** X14. The floats of the matrix need not obey the triangle inequality:
    where [pow] rounds correctly, on the dataset [[0.0], [0.2], [0.9]] the
    builder returns a matrix with
    [D[0][2] = 0.9 > 0.8999999999999999 = D[0][1] + D[1][2]]. *)
Theorem eucl_dist_matrix_triangle_fails :
  exists D,
    eucl_dist_matrix correctly_rounded
      [[0]; [0x1.999999999999ap-3]; [0x1.ccccccccccccdp-1]]%float = Ok D /\
    exists a b c,
      cell D 0 2 = Some a /\ cell D 0 1 = Some b /\ cell D 1 2 = Some c /\
      a = 0x1.ccccccccccccdp-1%float /\
      (b + c)%float = 0x1.cccccccccccccp-1%float /\
      (a <=? b + c)%float = false.
Proof.
  eexists. split; [vm_compute; reflexivity|].
  eexists _, _, _. repeat split; vm_compute; reflexivity.
Qed.

(** ** Threads or no threads *)

(** X15. On rows of one length the threads change nothing: for every
    [n_jobs], zero and negative included, and every order of the threads,
    [eucl_dist_matrix_thr_4] returns or raises exactly what the builder
    without threads [eucl_dist_matrix_4] returns or raises. *)
Theorem eucl_dist_matrix_thr_4_same_as_4 (P : platform) sched (X : dataset)
    (n_jobs : Z) :
  (forall l, sched l ≡ₚ l) ->
  equal_length X ->
  eucl_dist_matrix_thr_4 P sched X n_jobs = eucl_dist_matrix_4 P X n_jobs.
Proof.
  intros Hperm HX. unfold eucl_dist_matrix_thr_4, eucl_dist_matrix_4.
  rewrite (np_array_Ok X HX), !bind_Ok.
  destruct (floordiv (length X) n_jobs) as [c|e]; [|done].
  rewrite !bind_Ok.
  destruct (decide (c = 0%Z)) as [->|Hc0]; [done|].
  destruct (decide (c < 0)%Z) as [Hneg|Hpos].
  - rewrite (range_step_negative _ c Hneg), !bind_Ok.
    assert (sched [] = []) as -> by (apply Permutation_nil_r, Hperm).
    reflexivity.
  - remember (Z.to_nat c) as k eqn:Hk.
    assert (0 < k) as Hc by lia.
    assert (c = Z.of_nat k) as -> by lia. clear Hk Hc0 Hpos.
    destruct (range_step_pos (length X) k Hc) as (starts & -> & Hlt & Hcov).
    rewrite !bind_Ok.
    destruct (for_pure starts (fun i D => task_4 P D X i k)
                (fun D i => run_thread (fun D => task_4 P D X i k) D)
                (fun D => length D = length X)
                (np_zeros (length X) (length X))) as [-> _].
    + intros i D Hi HD.
      destruct (task_4_spec P X D i k HD) as (D' & HD' & Hlen' & _).
      { apply Hlt in Hi. lia. }
      unfold run_thread. by rewrite HD'.
    + apply length_np_zeros.
    + f_equal. rewrite !threads_cover; try done.
      * intros i Hi. apply Hlt. by rewrite <- (Hperm starts).
      * intros r Hr. destruct (Hcov r Hr) as (i & Hi & Hin).
        exists i. split; [by rewrite (Hperm starts) | done].
Qed.

Lemma eucl_dist_matrix_thr_4_same_as_4_witness :
  eucl_dist_matrix_thr_4 correctly_rounded reverse
    [[0; 0]; [3; 4]; [6; 8]]%float 2
  = eucl_dist_matrix_4 correctly_rounded [[0; 0]; [3; 4]; [6; 8]]%float 2.
Proof.
  apply (eucl_dist_matrix_thr_4_same_as_4 correctly_rounded reverse).
  - apply reverse_Permutation.
  - simpl. by repeat constructor.
Defined.

(** ** The notebook's use: the builders on a random dataset *)

(** X16. On a random dataset [R] of at least 8 rows the threaded builder
    with its default 8 jobs returns scipy's [cdist(R, R)], a matrix with as
    many rows and columns as the dataset has rows. *)
Theorem eucl_dist_matrix_thr_4_random_dataset (P : platform) sched
    (rnd : nat -> float) (m n : nat) :
  (forall l, sched l ≡ₚ l) ->
  8 <= m ->
  eucl_dist_matrix_thr_4 P sched (random_dataset rnd m n) n_jobs_default
  = Ok (cdist P (random_dataset rnd m n) (random_dataset rnd m n))
  /\ square m (cdist P (random_dataset rnd m n) (random_dataset rnd m n)).
Proof.
  intros Hperm Hm. split.
  - apply eucl_dist_matrix_thr_4_Ok; [done | apply equal_length_random_dataset |].
    rewrite length_random_dataset. unfold n_jobs_default. lia.
  - unfold cdist. split.
    + by rewrite length_map, length_random_dataset.
    + apply Forall_forall. intros row Hrow.
      change (map ?f ?l) with (f <$> l) in Hrow.
      apply list_elem_of_fmap in Hrow as (xi & -> & _).
      by rewrite length_map, length_random_dataset.
Qed.

Lemma eucl_dist_matrix_thr_4_random_dataset_witness :
  eucl_dist_matrix_thr_4 correctly_rounded reverse
    (random_dataset float_of_nat 8 2) n_jobs_default
  = Ok (cdist correctly_rounded (random_dataset float_of_nat 8 2)
          (random_dataset float_of_nat 8 2))
  /\ square 8 (cdist correctly_rounded (random_dataset float_of_nat 8 2)
                 (random_dataset float_of_nat 8 2)).
Proof.
  apply (eucl_dist_matrix_thr_4_random_dataset correctly_rounded reverse
           float_of_nat 8 2).
  - apply reverse_Permutation.
  - lia.
Defined.
